(** * l3-react-blocks-construct: the HTTP client wrapper and the
      activity-log filter, embedded from the TypeScript sources.

    - [Module Js]: the few JavaScript string primitives the two programs
      use ([startsWith], [replace] with the three regular expressions that
      occur, [toLowerCase], [includes], truthiness).
    - [Module Http]: [clients] of the HTTP client module ([request],
      [createHeaders], [handleAuthError], [HttpError]).
    - [Module ActivityLog]: [transformCategory] and [filterActivities] of
      pages/activity-log-v2/activity-log.tsx.

    A JavaScript string is modelled by [string]: a sequence of code units
    below 256 (the Latin-1 range), on which [toLowerCase] and the class
    [\s] are the ones of JavaScript. *)

From Stdlib Require Import ZArith Ascii String List Bool Lia Permutation.
From stdpp Require Import base tactics option list gmap strings.
Import ListNotations.

Local Open Scope Z_scope.

(* ===================================================================== *)
(** ** JavaScript primitives *)
(* ===================================================================== *)

Module Js.

(** [s.startsWith(p)] *)
Fixpoint startsWith (s p : string) : bool :=
  match p with
  | EmptyString => true
  | String c p' =>
      match s with
      | EmptyString => false
      | String d s' => if Ascii.eqb c d then startsWith s' p' else false
      end
  end.

(** [s.includes(sub)]: [sub] occurs in [s] at some position. *)
Fixpoint includes (s sub : string) : bool :=
  startsWith s sub ||
  match s with
  | EmptyString => false
  | String _ s' => includes s' sub
  end.

Definition slash : ascii := "/"%char.

(** [s.replace(/^\//, '')]: one leading slash is removed. *)
Definition strip_leading_slash (s : string) : string :=
  match s with
  | String c s' => if Ascii.eqb c slash then s' else s
  | EmptyString => s
  end.

(** [s.replace(/\/$/, '')]: one trailing slash is removed. *)
Fixpoint strip_trailing_slash (s : string) : string :=
  match s with
  | EmptyString => EmptyString
  | String c EmptyString => if Ascii.eqb c slash then EmptyString else s
  | String c s' => String c (strip_trailing_slash s')
  end.



(** Code units that [toLowerCase] changes: A-Z, and in the Latin-1
    supplement U+00C0-U+00D6 and U+00D8-U+00DE. Each maps to the code unit
    32 above it. *)
Definition is_upper (c : ascii) : bool :=
  let n := Z.of_N (N_of_ascii c) in
  ((65 <=? n) && (n <=? 90)) || ((192 <=? n) && (n <=? 214))
  || ((216 <=? n) && (n <=? 222)).

Definition lower_char (c : ascii) : ascii :=
  if is_upper c then ascii_of_N (N_of_ascii c + 32) else c.

(** [s.toLowerCase()] *)
Fixpoint toLowerCase (s : string) : string :=
  match s with
  | EmptyString => EmptyString
  | String c s' => String (lower_char c) (toLowerCase s')
  end.

(** The class [\s] below 256: TAB, LF, VT, FF, CR, SPACE and NBSP. *)
Definition is_space (c : ascii) : bool :=
  let n := Z.of_N (N_of_ascii c) in
  ((9 <=? n) && (n <=? 13)) || (n =? 32) || (n =? 160).

(** [s.replace(/\s+/g, '_')]: every maximal run of white space becomes one
    underscore. [in_run] tells that the previous code unit was white
    space, so that the run has already produced its underscore. *)
Fixpoint replace_space_runs (in_run : bool) (s : string) : string :=
  match s with
  | EmptyString => EmptyString
  | String c s' =>
      if is_space c
      then (if in_run then replace_space_runs true s'
            else String "_"%char (replace_space_runs true s'))
      else String c (replace_space_runs false s')
  end.

(** The string after its leading white space. *)
Fixpoint skip_spaces (s : string) : string :=
  match s with
  | EmptyString => EmptyString
  | String c s' => if is_space c then skip_spaces s' else s
  end.

(** No code unit of the string is white space. *)
Fixpoint no_space (s : string) : bool :=
  match s with
  | EmptyString => true
  | String c s' => negb (is_space c) && no_space s'
  end.

(** Truthiness of a value that is a string or undefined/null. *)
Definition truthy (v : option string) : bool :=
  match v with
  | Some s => negb (String.eqb s "")
  | None => false
  end.

(** A string inside a template literal; [undefined] prints as such. *)
Definition template (v : option string) : string :=
  match v with
  | Some s => s
  | None => "undefined"
  end.

(** [{...a, ...b}] on objects with string values: the keys of both, a key
    of [b] overriding the same key of [a]. *)
Definition spread (a b : gmap string string) : gmap string string := b ∪ a.

End Js.

(* ===================================================================== *)
(** ** The HTTP client *)
(* ===================================================================== *)

Module Http.

(** Parsed JSON, as [response.json()] delivers it. *)
#[local] Unset Elimination Schemes.
Inductive Json : Type :=
| JNull
| JBool (b : bool)
| JNum (n : Z)
| JStr (s : string)
| JArr (elems : list Json)
| JObj (fields : list (string * Json)).
#[local] Set Elimination Schemes.

(** The value of a key in a parsed object (whose keys are distinct). *)
Fixpoint get_field (k : string) (fields : list (string * Json)) : option Json :=
  match fields with
  | [] => None
  | (k', v) :: rest => if String.eqb k k' then Some v else get_field k rest
  end.

(** [v.k] for a parsed JSON value: [None] is the TypeError of a property
    access on [null]; [Some None] is [undefined]. *)
Definition property (v : Json) (k : string) : option (option Json) :=
  match v with
  | JNull => None
  | JObj fields => Some (get_field k fields)
  | _ => Some None
  end.

(** The message given to [Error]: the payload's own [message] when that is
    a string, the payload serialised otherwise. *)
Inductive ErrorMessage : Type :=
| OwnMessage (s : string)
| Stringified (payload : Json).

(** class HttpError *)
Record HttpError : Type := mkHttpError {
  message : ErrorMessage;
  status : Z;
  error : Json
}.

(** [new HttpError(status, error)]; [None] when the constructor throws. *)
Definition HttpError_new (st : Z) (err : Json) : option HttpError :=
  match property err "message" with
  | None => None
  | Some (Some (JStr m)) => Some (mkHttpError (OwnMessage m) st err)
  | Some _ => Some (mkHttpError (Stringified err) st err)
  end.

Inductive Method : Type := GET | POST | PUT | DELETE.

(** A request body: text, or a binary object (always truthy). *)
Inductive BodyInit : Type :=
| BodyText (s : string)
| BodyData (bytes : list Byte.byte).

Definition body_truthy (b : option BodyInit) : bool :=
  match b with
  | Some (BodyText s) => negb (String.eqb s "")
  | Some (BodyData _) => true
  | None => false
  end.

(** interface RequestOptions *)
Record RequestOptions : Type := mkOptions {
  opt_method : Method;
  opt_headers : gmap string string;
  opt_body : option BodyInit
}.

(** The [RequestInit] handed to [fetch]. *)
Record RequestInit : Type := mkInit {
  init_method : Method;
  init_credentials : string;
  init_headers : gmap string string;
  init_body : option BodyInit
}.

(** process.env, as far as the module reads it. *)
Record ProcessEnv : Type := mkProcessEnv {
  REACT_APP_PUBLIC_BACKEND_URL : option string;
  REACT_APP_PUBLIC_X_BLOCKS_KEY : option string;
  REACT_APP_COOKIE_ENABLED : option string
}.

Definition BASE_URL (env : ProcessEnv) : option string :=
  Js.strip_trailing_slash <$> REACT_APP_PUBLIC_BACKEND_URL env.

Definition BLOCKS_KEY (env : ProcessEnv) : string :=
  default "" (REACT_APP_PUBLIC_X_BLOCKS_KEY env).

(** The first statement of [request]. *)
Definition fullUrl (env : ProcessEnv) (url : string) : string :=
  if Js.startsWith url "http" then url
  else Js.template (BASE_URL env) +:+ "/" +:+ Js.strip_leading_slash url.

(** The state of the auth store that the client touches. *)
Record AuthStore : Type := mkAuthStore {
  accessToken : option string;
  refreshToken : option string
}.

(** Modelled from the spec: the store's [setAccessToken] action, whose
    source is not part of the client module; it writes the access token and
    nothing else. *)
Definition setAccessToken (tok : option string) (s : AuthStore) : AuthStore :=
  mkAuthStore tok (refreshToken s).

Definition baseHeaders (env : ProcessEnv) (store : AuthStore) : gmap string string :=
  let authToken :=
    if bool_decide (REACT_APP_COOKIE_ENABLED env = Some "false")
    then accessToken store else None in
  Js.spread
    {[ "Content-Type" := "application/json"; "x-blocks-key" := BLOCKS_KEY env ]}
    (if Js.truthy authToken
     then {[ "Authorization" := "bearer " +:+ Js.template authToken ]}
     else ∅).

(** [createHeaders(headers)]; the [Headers] object is represented by the
    record it is built from. *)
Definition createHeaders (env : ProcessEnv) (store : AuthStore)
    (headers : gmap string string) : gmap string string :=
  Js.spread (baseHeaders env store) headers.

(** What [fetch] delivers: a response, whose [json()] either parses the
    body or rejects ([None]). *)
Record Response : Type := mkResponse {
  resp_status : Z;
  resp_json : option Json
}.

(** [response.ok]: the status is in the range 200-299. *)
Definition ok (r : Response) : bool :=
  (200 <=? resp_status r) && (resp_status r <=? 299).

(** What a JavaScript [throw] or a rejected promise carries. *)
Inductive Exn : Type :=
| EHttp (e : HttpError)
| EOther (name : string).

(** [throw new HttpError(status, error)]: what ends up thrown. *)
Definition throw_new_HttpError (st : Z) (err : Json) : Exn :=
  match HttpError_new st err with
  | Some e => EHttp e
  | None => EOther "TypeError"
  end.

(** [fetch] resolves to a response, or rejects (with a TypeError) when no
    response was obtained. *)
Inductive FetchResult : Type :=
| FetchRejects
| FetchResolves (r : Response).

(** [getRefreshToken()] resolves to the parsed body of the refresh
    endpoint's answer, or rejects. *)
Inductive RefreshResult : Type :=
| RefreshRejects (e : Exn)
| RefreshResolves (refreshTokenRes : Json).

(** [v === s] for a property that was read. *)
Definition is_string (v : option Json) (s : string) : bool :=
  match v with
  | Some (JStr t) => String.eqb t s
  | _ => false
  end.

(** [refreshTokenRes.access_token], a string by its declared type; any
    other value is kept as [undefined]. *)
Definition access_token (refreshTokenRes : Json) : option string :=
  match property refreshTokenRes "access_token" with
  | Some (Some (JStr t)) => Some t
  | _ => None
  end.

(** What the client does to the outside, in the order it does it. *)
Inductive Event : Type :=
| EvFetch (url : string) (config : RequestInit) (res : FetchResult)
| EvRefresh (res : RefreshResult)
| EvSetAccessToken (tok : option string).

(** The environment of the client: the process environment, and the two
    asynchronous calls it awaits, [fetch] and [getRefreshToken] (of
    features/auth/services/auth.service), each answering from the history
    of the run so far. *)
Record Env : Type := mkEnv {
  process_env : ProcessEnv;
  fetch : list Event -> string -> RequestInit -> FetchResult;
  getRefreshToken : list Event -> AuthStore -> RefreshResult
}.

(** The mutable world: the auth store and the history of events. *)
Record World : Type := mkWorld {
  store : AuthStore;
  log : list Event
}.

Definition record_event (ev : Event) (w : World) : World :=
  mkWorld (store w) (log w ++ [ev]).

Definition write_token (tok : option string) (w : World) : World :=
  mkWorld (setAccessToken tok (store w)) (log w ++ [EvSetAccessToken tok]).

(** How the promise of an async call stands when the model stops. *)
Inductive Outcome : Type :=
| Returned (v : Json)
| Thrown (e : Exn).

Inductive Result : Type :=
| Pending
| Settled (o : Outcome).

Definition invalid_refresh_token : string := "invalid_refresh_token".

(** The [catch] clause of [request]. *)
Definition request_catch (e : Exn) : Exn :=
  match e with
  | EHttp _ => e
  | EOther _ => throw_new_HttpError 500 (JObj [("error", JStr "Network error")])
  end.

(** [config] as [request] builds it: the body only if it is truthy. *)
Definition request_config (env : ProcessEnv) (st : AuthStore)
    (o : RequestOptions) : RequestInit :=
  mkInit (opt_method o) "include" (createHeaders env st (opt_headers o))
         (if body_truthy (opt_body o) then opt_body o else None).

(** [handleAuthError], with the [request] it calls back as a parameter. *)
Definition handleAuthError
    (request : World -> string -> RequestOptions -> Result * World)
    (env : Env) (w : World) (url : string) (method : Method)
    (headers : gmap string string) (body : option BodyInit) : Result * World :=
  let authStore := store w in
  if negb (Js.truthy (refreshToken authStore)) then
    (Settled (Thrown
       (throw_new_HttpError 401 (JObj [("error", JStr invalid_refresh_token)]))), w)
  else
    let r := getRefreshToken env (log w) authStore in
    let w1 := record_event (EvRefresh r) w in
    match r with
    | RefreshRejects e => (Settled (Thrown e), w1)
    | RefreshResolves refreshTokenRes =>
        match property refreshTokenRes "error" with
        | None => (Settled (Thrown (EOther "TypeError")), w1)
        | Some err =>
            if is_string err invalid_refresh_token then
              (Settled (Thrown (throw_new_HttpError 401 refreshTokenRes)), w1)
            else
              request (write_token (access_token refreshTokenRes) w1) url
                      (mkOptions method headers body)
        end
    end.

(** [request]. Each call spends one unit of [fuel]; with none left the
    promise is still pending. An error thrown by [handleAuthError], or a
    rejection of the [response.json()] that is returned unawaited, passes
    by the [catch] clause. *)
Fixpoint request (fuel : nat) (env : Env) (w : World) (url : string)
    (o : RequestOptions) {struct fuel} : Result * World :=
  match fuel with
  | O => (Pending, w)
  | S fuel' =>
      let full := fullUrl (process_env env) url in
      let config := request_config (process_env env) (store w) o in
      let res := fetch env (log w) full config in
      let w1 := record_event (EvFetch full config res) w in
      match res with
      | FetchRejects => (Settled (Thrown (request_catch (EOther "TypeError"))), w1)
      | FetchResolves response =>
          if ok response then
            (Settled (match resp_json response with
                      | Some v => Returned v
                      | None => Thrown (EOther "SyntaxError")
                      end), w1)
          else if resp_status response =? 401 then
            handleAuthError (request fuel' env) env w1 url
                            (opt_method o) (opt_headers o) (opt_body o)
          else
            match resp_json response with
            | None => (Settled (Thrown (request_catch (EOther "SyntaxError"))), w1)
            | Some err =>
                (Settled (Thrown (request_catch
                   (throw_new_HttpError (resp_status response) err))), w1)
            end
      end
  end.

(** [clients.get], [clients.post], [clients.put], [clients.delete]; an
    omitted [headers] argument is the empty object. *)
Definition get fuel env w url headers :=
  request fuel env w url (mkOptions GET headers None).
Definition post fuel env w url body headers :=
  request fuel env w url (mkOptions POST headers (Some body)).
Definition put fuel env w url body headers :=
  request fuel env w url (mkOptions PUT headers (Some body)).
Definition delete fuel env w url headers :=
  request fuel env w url (mkOptions DELETE headers None).

(** *** Reading the history of a run *)

Definition is_fetch (ev : Event) : bool :=
  match ev with EvFetch _ _ _ => true | _ => false end.

(** A [fetch] that was answered with status 401. *)
Definition is_fetch_401 (ev : Event) : bool :=
  match ev with
  | EvFetch _ _ (FetchResolves r) => negb (ok r) && (resp_status r =? 401)
  | _ => false
  end.

(** A call of the refresh endpoint. *)
Definition is_refresh (ev : Event) : bool :=
  match ev with EvRefresh _ => true | _ => false end.

(** The refresh call resolved and did not report [invalid_refresh_token]:
    the case in which [handleAuthError] goes on to store the token. *)
Definition refresh_accepted (refreshTokenRes : Json) : bool :=
  match property refreshTokenRes "error" with
  | Some err => negb (is_string err invalid_refresh_token)
  | None => false
  end.

Definition is_accepted_refresh (ev : Event) : bool :=
  match ev with
  | EvRefresh (RefreshResolves j) => refresh_accepted j
  | _ => false
  end.

Definition is_set_token (ev : Event) : bool :=
  match ev with EvSetAccessToken _ => true | _ => false end.

Definition count (p : Event -> bool) (evs : list Event) : nat :=
  length (List.filter p evs).

(** The event, if it is a [fetch], is the request described by [url] and
    [o]: the resolved URL of [url], and the configuration that [request]
    builds from [o] (its method, its headers merged over the base set, its
    body), with whatever access token the store holds at that time. *)
Definition original_request (env : Env) (url : string) (o : RequestOptions)
    (refresh : option string) (ev : Event) : Prop :=
  match ev with
  | EvFetch u c _ =>
      u = fullUrl (process_env env) url
      ∧ ∃ tok, c = request_config (process_env env) (mkAuthStore tok refresh) o
  | _ => True
  end.

Definition carries_no_body (ev : Event) : Prop :=
  match ev with
  | EvFetch _ c _ => init_body c = None
  | _ => True
  end.

Definition settled (r : Result) : bool :=
  match r with Pending => false | Settled _ => true end.

End Http.

(* ===================================================================== *)
(** ** Concrete environments *)
(* ===================================================================== *)

Module Scenario.
Import Http.

Definition example_env : ProcessEnv :=
  mkProcessEnv (Some "https://api.example.com/") (Some "key-1") (Some "false").

Definition store0 : AuthStore := mkAuthStore (Some "t1") (Some "r1").
Definition world0 : World := mkWorld store0 [].

(** A store without refresh token. *)
Definition world_no_refresh : World := mkWorld (mkAuthStore (Some "t1") None) [].

Definition unauthorized : Response :=
  mkResponse 401 (Some (JObj [("error", JStr "unauthorized")])).

Definition users_payload : Json := JArr [JStr "ann"; JStr "bob"].

Definition fresh_token : Json := JObj [("access_token", JStr "t2")].


(** The backend answers 401 whatever the token. *)
Definition env_always_401 : Env :=
  mkEnv example_env
    (fun _ _ _ => FetchResolves unauthorized)
    (fun _ _ => RefreshResolves fresh_token).

(** A 404 whose body is an HTML page, not JSON. *)
Definition env_html_404 : Env :=
  mkEnv example_env
    (fun _ _ _ => FetchResolves (mkResponse 404 None))
    (fun _ _ => RefreshResolves fresh_token).

(** A 404 with the JSON body [{message: "not found"}]. *)
Definition not_found_body : Json := JObj [("message", JStr "not found")].

Definition env_json_404 : Env :=
  mkEnv example_env
    (fun _ _ _ => FetchResolves (mkResponse 404 (Some not_found_body)))
    (fun _ _ => RefreshResolves fresh_token).

(** The backend answers every request with 200 and a list of users. *)
Definition env_ok : Env :=
  mkEnv example_env
    (fun _ _ _ => FetchResolves (mkResponse 200 (Some users_payload)))
    (fun _ _ => RefreshResolves fresh_token).

Definition get_users : RequestOptions := mkOptions GET ∅ None.

End Scenario.

(* ===================================================================== *)
(** ** The activity-log page *)
(* ===================================================================== *)

Module ActivityLog.

(** A JavaScript time value, as [getTime()] gives it: [None] is NaN. *)
Definition TimeValue : Type := option Z.

(** [a >= b] and [a <= b] on time values; false as soon as one is NaN. *)
Definition num_ge (a b : TimeValue) : bool :=
  match a, b with
  | Some x, Some y => y <=? x
  | _, _ => false
  end.

Definition num_le (a b : TimeValue) : bool :=
  match a, b with
  | Some x, Some y => x <=? y
  | _, _ => false
  end.

Record ActivityItem : Type := mkItem {
  description : string;
  category : string
}.

(** A group of the timeline; [date] holds the time value of
    [new Date(activity.date)]. *)
Record ActivityGroup : Type := mkGroup {
  date : TimeValue;
  items : list ActivityItem
}.

(** [DateRange] of the day picker: two optional [Date]s, each held as its
    time value. *)
Record DateRange : Type := mkRange {
  from : option TimeValue;
  to : option TimeValue
}.

Definition transformCategory (category : string) : string :=
  Js.replace_space_runs false (Js.toLowerCase category).

(** What the normalisation of a category is to do, equation by equation:
    a code unit that is not white space is lowercased, and a run of white
    space yields a single underscore. *)
Definition normalizes (f : string -> string) : Prop :=
  f EmptyString = EmptyString
  /\ (forall c s, Js.is_space c = false ->
        f (String c s) = String (Js.lower_char c) (f s))
  /\ (forall c s, Js.is_space c = true ->
        f (String c s) = String "_"%char (f (Js.skip_spaces s))).

(** [categories.includes(c)] *)
Definition array_includes (categories : list string) (c : string) : bool :=
  existsb (String.eqb c) categories.

(** [(group) => ({ ...group, items: group.items.filter(p) })] *)
Definition restrict (p : ActivityItem -> bool) (group : ActivityGroup)
  : ActivityGroup :=
  mkGroup (date group) (List.filter p (items group)).

(** [(group) => group.items.length > 0] *)
Definition has_items (group : ActivityGroup) : bool :=
  (0 <? length (items group))%nat.

(** [groups.map(restrict).filter(has_items)] *)
Definition narrow_items (p : ActivityItem -> bool)
    (groups : list ActivityGroup) : list ActivityGroup :=
  List.filter has_items (map (restrict p) groups).

(** The three [if] blocks of [filterActivities], in the order of the
    source. *)
Definition date_step (range : option DateRange)
    (filtered : list ActivityGroup) : list ActivityGroup :=
  match range with
  | Some (mkRange (Some fromDate) (Some toDate)) =>
      List.filter (fun activity =>
                     num_ge (date activity) fromDate
                     && num_le (date activity) toDate) filtered
  | _ => filtered
  end.

Definition text_step (query : string)
    (filtered : list ActivityGroup) : list ActivityGroup :=
  if Js.truthy (Some query) then
    narrow_items (fun item =>
                    Js.includes (Js.toLowerCase (description item))
                                (Js.toLowerCase query)) filtered
  else filtered.

Definition category_step (categories : list string)
    (filtered : list ActivityGroup) : list ActivityGroup :=
  if (0 <? length categories)%nat then
    narrow_items (fun item =>
                    array_includes categories (transformCategory (category item)))
                 filtered
  else filtered.

(** The value that [filterActivities] hands to [setFilteredActivities]. *)
Definition filtered_value (activities : list ActivityGroup) (query : string)
    (range : option DateRange) (categories : list string) : list ActivityGroup :=
  category_step categories (text_step query (date_step range activities)).

(** What the function can reach: the imported [activities] array and the
    component's [filteredActivities] state. *)
Record Page : Type := mkPage {
  activities : list ActivityGroup;
  filteredActivities : list ActivityGroup
}.

Definition setFilteredActivities (v : list ActivityGroup) (p : Page) : Page :=
  mkPage (activities p) v.

Definition filterActivities (query : string) (range : option DateRange)
    (categories : list string) (p : Page) : Page :=
  setFilteredActivities (filtered_value (activities p) query range categories) p.

(** The three predicates, named, to apply them in an arbitrary order. *)
Inductive Predicate : Type := ByDate | ByText | ByCategory.

Definition apply_predicate (query : string) (range : option DateRange)
    (categories : list string) (acc : list ActivityGroup) (s : Predicate)
    : list ActivityGroup :=
  match s with
  | ByDate => date_step range acc
  | ByText => text_step query acc
  | ByCategory => category_step categories acc
  end.

Definition apply_in_order (order : list Predicate) (query : string)
    (range : option DateRange) (categories : list string)
    (source : list ActivityGroup) : list ActivityGroup :=
  fold_left (apply_predicate query range categories) order source.

(** An output group [g'] derives from a source group [g]: same date, and
    its items are items of [g], in the order of [g]. *)
Definition derives_from (g' g : ActivityGroup) : Prop :=
  date g' = date g /\ sublist (items g') (items g).

(** [out] is made of groups derived, in order, from some of the groups of
    [src]. *)
Definition part_of (out src : list ActivityGroup) : Prop :=
  exists origin, sublist origin src /\ Forall2 derives_from out origin.

End ActivityLog.

Module ActivityScenario.
Import ActivityLog.

(** The example of the specification: one group dated 2024-01-10 with a
    security alert and an account item. *)
Definition login_item : ActivityItem := mkItem "Login from Chrome" "Security Alert".
Definition profile_item : ActivityItem := mkItem "Updated profile" "Account".

Definition jan10 : TimeValue := Some 1704844800000.

Definition example_source : list ActivityGroup :=
  [mkGroup jan10 [login_item; profile_item]].

(** February 2024. *)
Definition february : DateRange :=
  mkRange (Some (Some 1706745600000)) (Some (Some 1709164800000)).

Definition example_page : Page := mkPage example_source example_source.

End ActivityScenario.

(* ===================================================================== *)
(** ** The activity-log page: its three change handlers *)
(* ===================================================================== *)

Module ActivityPage.
Import ActivityLog.

(** The component as one render sees it: the page (source array and
    [filteredActivities]) and the three criteria held in state. *)
Record View : Type := mkView {
  page : Page;
  searchQuery : string;
  dateRange : option DateRange;
  selectedCategory : list string
}.

(** The first render: [useState('')], [useState()], [useState([])] and
    [useState(activities)]. *)
Definition initial (source : list ActivityGroup) : View :=
  mkView (mkPage source source) "" None [].

(** Each handler stores its argument and calls [filterActivities] with it
    and with the other two criteria of the current render. *)
Definition handleSearchChange (query : string) (v : View) : View :=
  mkView (filterActivities query (dateRange v) (selectedCategory v) (page v))
         query (dateRange v) (selectedCategory v).

Definition handleDateRangeChange (range : option DateRange) (v : View) : View :=
  mkView (filterActivities (searchQuery v) range (selectedCategory v) (page v))
         (searchQuery v) range (selectedCategory v).

Definition handleCategoryChange (categories : list string) (v : View) : View :=
  mkView (filterActivities (searchQuery v) (dateRange v) categories (page v))
         (searchQuery v) (dateRange v) categories.

(** What the toolbar can report, and a session of such reports, each one
    handled in the render that follows the previous one. *)
Inductive Change : Type :=
| SearchChange (query : string)
| DateRangeChange (range : option DateRange)
| CategoryChange (categories : list string).

Definition handle (v : View) (c : Change) : View :=
  match c with
  | SearchChange query => handleSearchChange query v
  | DateRangeChange range => handleDateRangeChange range v
  | CategoryChange categories => handleCategoryChange categories v
  end.

Definition session (source : list ActivityGroup) (changes : list Change) : View :=
  fold_left handle changes (initial source).

End ActivityPage.

(* ===================================================================== *)
(** ** usePasswordStrength *)
(* ===================================================================== *)

Module PasswordStrength.

Definition ALLOWED_SPECIAL_CHARS : string := "@$!%*?&".

(** interface PasswordChecks, with its keys [length], [case], [number]
    and [special] in this order. *)
Record PasswordChecks : Type := mkChecks {
  check_length : bool;
  check_case : bool;
  check_number : bool;
  check_special : bool
}.

(** [/[...]/.test(s)] for a regular expression that is one character
    class: some code unit of [s] is in the class. *)
Fixpoint test_class (cls : ascii -> bool) (s : string) : bool :=
  match s with
  | EmptyString => false
  | String c s' => cls c || test_class cls s'
  end.

Definition code_between (lo hi : Z) (c : ascii) : bool :=
  let n := Z.of_N (N_of_ascii c) in (lo <=? n) && (n <=? hi).

(** [[a-z]], [[A-Z]], [\d] and [[@$!%*?&]]. *)
Definition class_lower : ascii -> bool := code_between 97 122.
Definition class_upper : ascii -> bool := code_between 65 90.
Definition class_digit : ascii -> bool := code_between 48 57.
Definition class_special (c : ascii) : bool :=
  existsb (Ascii.eqb c) ["@"; "$"; "!"; "%"; "*"; "?"; "&"]%char.

(** [Object.values(checks)] *)
Definition Object_values (c : PasswordChecks) : list bool :=
  [check_length c; check_case c; check_number c; check_special c].

(** The two pieces of state of the hook. *)
Record Hook : Type := mkHook {
  strength : Z;
  checks : PasswordChecks
}.

Definition initial : Hook := mkHook 0 (mkChecks false false false false).

Definition newChecks (password : string) : PasswordChecks :=
  let len := Z.of_nat (String.length password) in
  mkChecks ((8 <=? len) && (len <=? 30))
           (test_class class_lower password && test_class class_upper password)
           (test_class class_digit password)
           (test_class class_special password).

(** [validatePassword]: what it returns, and the state it sets. *)
Definition validatePassword (password : string) (h : Hook) : bool * Hook :=
  let c := newChecks password in
  let strengthScore :=
    Z.of_nat (length (List.filter (fun b : bool => b) (Object_values c))) * 25 in
  (forallb (fun b : bool => b) (Object_values c), mkHook strengthScore c).

Definition getStrengthColor (h : Hook) : string :=
  if strength h <=? 25 then "bg-red-500"
  else if strength h <=? 50 then "bg-orange-500"
  else if strength h <=? 75 then "bg-yellow-500"
  else "bg-green-600".

Definition allRequirementsMet (h : Hook) : bool :=
  forallb (fun b : bool => b) (Object_values (checks h)).

(** The hook once its effect has run for [password]. *)
Definition after_effect (password : string) : Hook :=
  snd (validatePassword password initial).

(** Some code unit of [s] satisfies [P]. *)
Definition has_char (P : ascii -> Prop) (s : string) : Prop :=
  exists c, In c (list_ascii_of_string s) /\ P c.

Definition is_lower_letter (c : ascii) : Prop :=
  (97 <= Z.of_N (N_of_ascii c) <= 122).
Definition is_upper_letter (c : ascii) : Prop :=
  (65 <= Z.of_N (N_of_ascii c) <= 90).
Definition is_digit (c : ascii) : Prop :=
  (48 <= Z.of_N (N_of_ascii c) <= 57).
(** The code unit is one of those listed in [ALLOWED_SPECIAL_CHARS]. *)
Definition is_allowed_special (c : ascii) : Prop :=
  In c (list_ascii_of_string ALLOWED_SPECIAL_CHARS).

End PasswordStrength.

(* ===================================================================== *)
(** ** SigninForm: the submit handler and the captcha gate *)
(* ===================================================================== *)

Module SigninForm.

(** What [mutateAsync] resolves to, read through the properties the
    handler uses; [mfaType] is held as the text a template prints. *)
Record SignInResponse : Type := mkSignIn {
  enable_mfa : bool;
  mfaId : option string;
  mfaType : option string;
  access_token : option string;
  refresh_token : option string
}.

Record Values : Type := mkValues {
  username : string;
  password : string
}.

(** The three pieces of state of the component. *)
Record State : Type := mkState {
  captchaToken : string;
  failedAttempts : Z;
  showCaptcha : bool
}.

Definition initial : State := mkState "" 0 false.

(** [process.env.REACT_APP_GOOGLE_SITE_KEY || ''] *)
Definition googleSiteKey (REACT_APP_GOOGLE_SITE_KEY : option string) : string :=
  if Js.truthy REACT_APP_GOOGLE_SITE_KEY
  then Js.template REACT_APP_GOOGLE_SITE_KEY else "".

Definition captchaEnabled (site_key_env : option string) : bool :=
  negb (String.eqb (googleSiteKey site_key_env) "").

(** The outcome of [mutateAsync]: it rejects, or resolves to a response
    (or to [undefined]). *)
Inductive MutateResult : Type :=
| MutateRejects
| MutateResolves (res : option SignInResponse).

(** What the handler does to the outside. *)
Inductive Action : Type :=
| CallSignin (grantType username password : string)
| Navigate (to_ : string)
| Login (accessToken refreshToken : option string)
| ToastSuccess.

Definition handleCaptchaVerify (token : string) (s : State) : State :=
  mkState token (failedAttempts s) (showCaptcha s).

Definition handleCaptchaExpired (s : State) : State :=
  mkState "" (failedAttempts s) (showCaptcha s).

(** The [catch] clause of [onSubmitHandler]. *)
Definition on_failure (site_key_env : option string) (s : State) : State :=
  if captchaEnabled site_key_env then
    let newFailedAttempts := failedAttempts s + 1 in
    mkState (captchaToken s) newFailedAttempts
            (if (3 <=? newFailedAttempts) && negb (showCaptcha s)
             then true else showCaptcha s)
  else s.

(** The captcha widget is on the page. *)
Definition captcha_rendered (site_key_env : option string) (s : State) : bool :=
  captchaEnabled site_key_env && showCaptcha s.

(** [onSubmitHandler(values)], given what [mutateAsync] will answer. *)
Definition onSubmitHandler (site_key_env : option string) (s : State)
    (values : Values) (answer : MutateResult) : State * list Action :=
  if captcha_rendered site_key_env s && negb (Js.truthy (Some (captchaToken s)))
  then (s, [])
  else
    let call := CallSignin "password" (username values) (password values) in
    match answer with
    | MutateRejects => (on_failure site_key_env s, [call])
    | MutateResolves None =>
        (* [res?.enable_mfa] is undefined; [res.access_token] throws *)
        (on_failure site_key_env s, [call])
    | MutateResolves (Some res) =>
        if enable_mfa res then
          (s, [call;
               Navigate ("/verify-key?mfa_id=" +:+ Js.template (mfaId res)
                         +:+ "&mfa_type=" +:+ Js.template (mfaType res)
                         +:+ "&user_name=" +:+ username values)])
        else
          (s, [call; Login (access_token res) (refresh_token res);
               Navigate "/"; ToastSuccess])
    end.

(** What can happen to the form; the captcha callbacks exist only while
    the widget is rendered. *)
Inductive Event : Type :=
| Submit (values : Values) (answer : MutateResult)
| CaptchaVerify (token : string)
| CaptchaExpired.

Definition step (site_key_env : option string) (s : State) (e : Event)
  : State * list Action :=
  match e with
  | Submit values answer => onSubmitHandler site_key_env s values answer
  | CaptchaVerify token =>
      (if captcha_rendered site_key_env s then handleCaptchaVerify token s
       else s, [])
  | CaptchaExpired =>
      (if captcha_rendered site_key_env s then handleCaptchaExpired s
       else s, [])
  end.

Fixpoint run (site_key_env : option string) (s : State) (events : list Event)
  : State * list Action :=
  match events with
  | [] => (s, [])
  | e :: rest =>
      let '(s1, acts1) := step site_key_env s e in
      let '(s2, acts2) := run site_key_env s1 rest in
      (s2, acts1 ++ acts2)
  end.

Definition is_call (a : Action) : bool :=
  match a with CallSignin _ _ _ => true | _ => false end.

Definition is_login (a : Action) : bool :=
  match a with Login _ _ => true | _ => false end.


(** The submission reaches the catch clause. *)
Definition fails (answer : MutateResult) : bool :=
  match answer with
  | MutateRejects => true
  | MutateResolves None => true
  | MutateResolves (Some _) => false
  end.

End SigninForm.

(* ===================================================================== *)
(** ** useSigninMutation: the error handler *)
(* ===================================================================== *)

Module SigninMutation.
Import Http.

(** The values [onError] may be handed: a string, an [HttpError] of the
    HTTP client, or a plain object. *)
Inductive ErrorValue : Type :=
| ErrString (s : string)
| ErrHttpError (e : HttpError)
| ErrObject (j : Json).

Record ErrorDetails : Type := mkDetails {
  title : string;
  details_message : string
}.

(** [v?.k] on a value that may be undefined: undefined on [null] and
    [undefined], the property otherwise. *)
Definition optional (v : option Json) (k : string) : option Json :=
  match v with
  | Some (JObj fields) => get_field k fields
  | _ => None
  end.

(** [errorObj?.k]; of an [HttpError] only [status] and [error] matter
    here, and it has no [response]. *)
Definition optional_of (errorObj : ErrorValue) (k : string) : option Json :=
  match errorObj with
  | ErrString _ => None
  | ErrHttpError e =>
      if String.eqb k "status" then Some (JNum (status e))
      else if String.eqb k "error" then Some (error e)
      else None
  | ErrObject j => optional (Some j) k
  end.

(** [v === n] for a number [n]. *)
Definition is_number (v : option Json) (n : Z) : bool :=
  match v with
  | Some (JNum m) => m =? n
  | _ => false
  end.

Definition invalid_username_password : string := "invalid_username_password".

Section WithJSON.

(** [JSON.parse], [None] when it throws. *)
Variable JSON_parse : string -> option Json.

(** [errorObj] after the [try] block of [onError]. *)
Definition errorObj (error : ErrorValue) : ErrorValue :=
  match error with
  | ErrString s =>
      match JSON_parse s with
      | Some j => ErrObject j
      | None => error
      end
  | _ => error
  end.

Definition isInvalidCredentials (error : ErrorValue) : bool :=
  let o := errorObj error in
  (is_number (optional_of o "status") 400
   && is_string (optional (optional_of o "error") "error")
                invalid_username_password)
  || (is_number (optional (optional_of o "response") "status") 400
      && (is_string (optional (optional (optional_of o "response") "data") "error")
                    invalid_username_password
          || is_string (optional (optional (optional (optional_of o "response")
                                              "data") "error") "error")
                       invalid_username_password)).

(** [onError]: the [errorDetails] it sets. *)
Definition onError (error : ErrorValue) : ErrorDetails :=
  let invalid := isInvalidCredentials error in
  mkDetails (if invalid then "Invalid Credentials" else "Something went wrong")
            (if invalid then "Your email or password is not valid."
             else "Please try again.").

End WithJSON.

(** [onSuccess]: the [errorDetails] it sets. *)
Definition onSuccess : ErrorDetails := mkDetails "" "".

End SigninMutation.

Module MoreScenario.
Import Http Scenario.




(** No response at all. *)
Definition env_offline : Env :=
  mkEnv example_env
    (fun _ _ _ => FetchRejects)
    (fun _ _ => RefreshResolves fresh_token).

(** A 400 of the sign-in endpoint. *)
Definition invalid_credentials_body : Json :=
  JObj [("error", JStr "invalid_username_password");
        ("error_description", JStr "wrong user name or password")].

Definition env_signin_400 : Env :=
  mkEnv example_env
    (fun _ _ _ => FetchResolves (mkResponse 400 (Some invalid_credentials_body)))
    (fun _ _ => RefreshResolves fresh_token).

Definition signin_request : RequestOptions :=
  mkOptions POST ∅ (Some (BodyText "grant_type=password")).

End MoreScenario.

(* ===================================================================== *)
(** ** AuthenticatorAppSetup: verifying the one-time password *)
(* ===================================================================== *)

Module AuthenticatorAppSetup.

(** The state of the component that the verification touches;
    [lastVerifiedOtp] is [lastVerifiedOtpRef.current]. *)
Record State : Type := mkState {
  otpValue : string;
  otpError : string;
  mfaId : string;
  lastVerifiedOtp : string
}.

Definition initial : State := mkState "" "" "" "".

(** type VerifyOTP *)
Record VerifyOTP : Type := mkVerifyOTP {
  verificationCode : string;
  payload_mfaId : string;
  authType : Z
}.

(** What [generateOTP] and [verifyOTP] answer, read through the
    properties the callbacks use. *)
Record OtpResponse : Type := mkOtpResponse {
  isSuccess : bool;
  isValid : bool;
  res_mfaId : string
}.

Inductive Action : Type :=
| CallVerifyOTP (payload : VerifyOTP)
| ToastSetupIncomplete
| CallOnNext.

(** [onVerify] *)
Definition onVerify (s : State) : State * list Action :=
  if negb (Js.truthy (Some (mfaId s))) then (s, [ToastSetupIncomplete])
  else (s, [CallVerifyOTP (mkVerifyOTP (otpValue s) (mfaId s) 1)]).

(** The effect that verifies a complete code by itself. *)
Definition auto_verify (verifyOtpPending : bool) (s : State)
  : State * list Action :=
  if (Z.of_nat (String.length (otpValue s)) =? 6)
     && Js.truthy (Some (mfaId s))
     && negb verifyOtpPending
     && negb (String.eqb (otpValue s) (lastVerifiedOtp s))
  then onVerify (mkState (otpValue s) (otpError s) (mfaId s) (otpValue s))
  else (s, []).

(** [onChange] of the OTP input. *)
Definition onChange (value : string) (s : State) : State :=
  mkState value "" (mfaId s) (lastVerifiedOtp s).

(** [onSuccess] of [generateOTP]. *)
Definition onGenerated (res : option OtpResponse) (s : State) : State :=
  match res with
  | Some r =>
      if isSuccess r && isSuccess r
      then mkState (otpValue s) (otpError s) (res_mfaId r) (lastVerifiedOtp s)
      else s
  | None => s
  end.

(** [onSuccess] and [onError] of [verifyOTP]. *)
Definition onVerified (res : option OtpResponse) (s : State)
  : State * list Action :=
  if match res with Some r => isSuccess r && isValid r | None => false end
  then (s, [CallOnNext])
  else (mkState (otpValue s) "Invalid OTP. Please try again." (mfaId s)
                (lastVerifiedOtp s), []).

Definition onVerifyError (s : State) : State :=
  mkState (otpValue s) "Verification failed. Please try again." (mfaId s)
          (lastVerifiedOtp s).

(** What can happen to the dialog. [Effect] is a run of the verifying
    effect, with the value [verifyOtpPending] has in that render. *)
Inductive Event : Type :=
| Change (value : string)
| Effect (verifyOtpPending : bool)
| ClickVerify
| Generated (res : option OtpResponse)
| Verified (res : option OtpResponse)
| VerifyError.

Definition step (s : State) (e : Event) : State * list Action :=
  match e with
  | Change value => (onChange value s, [])
  | Effect pending => auto_verify pending s
  | ClickVerify => onVerify s
  | Generated res => (onGenerated res s, [])
  | Verified res => onVerified res s
  | VerifyError => (onVerifyError s, [])
  end.

(** The codes that the effect sends for verification along a sequence of
    events, in order. *)
Fixpoint auto_codes (s : State) (events : list Event) : list string :=
  match events with
  | [] => []
  | e :: rest =>
      let '(s1, acts) := step s e in
      match e, acts with
      | Effect _, [CallVerifyOTP p] => verificationCode p :: auto_codes s1 rest
      | _, _ => auto_codes s1 rest
      end
  end.

(** All that the dialog does along a sequence of events. *)
Fixpoint run (s : State) (events : list Event) : State * list Action :=
  match events with
  | [] => (s, [])
  | e :: rest =>
      let '(s1, acts1) := step s e in
      let '(s2, acts2) := run s1 rest in
      (s2, acts1 ++ acts2)
  end.

(** No code of the list equals the one before it, [prev] being the one
    before the first. *)
Fixpoint no_repeat (prev : string) (codes : list string) : Prop :=
  match codes with
  | [] => True
  | c :: rest => c <> prev /\ no_repeat c rest
  end.

End AuthenticatorAppSetup.

(* ===================================================================== *)
(** ** Facts about the string primitives *)
(* ===================================================================== *)

Module JsFacts.
Import Js.





Lemma append_assoc (a b c : string) : (a +:+ b) +:+ c = a +:+ (b +:+ c).
Proof.
  induction a as [|x a IH]; [reflexivity|].
  change (String x ((a +:+ b) +:+ c) = String x (a +:+ (b +:+ c))).
  now rewrite IH.
Qed.

End JsFacts.

(* ===================================================================== *)
(** ** Facts about the HTTP client *)
(* ===================================================================== *)

Module HttpFacts.
Import Js JsFacts Http Scenario.

(** *** URL resolution *)



(** The resolution in the four combinations, and what happens outside
    them: only one slash is removed on either side. *)
Example fullUrl_combinations :
  let e0 := mkProcessEnv (Some "https://api.example.com") None None in
  fullUrl e0 "users" = "https://api.example.com/users"
  ∧ fullUrl e0 "/users" = "https://api.example.com/users"
  ∧ fullUrl example_env "users" = "https://api.example.com/users"
  ∧ fullUrl example_env "/users" = "https://api.example.com/users"
  ∧ fullUrl example_env "//users" = "https://api.example.com//users".
Proof. repeat split; reflexivity. Qed.

(** *** Headers *)



(** *** The history of a run *)

Lemma original_request_now (env : Env) (url : string) (o : RequestOptions)
    (st : AuthStore) (res : FetchResult) :
  original_request env url o (refreshToken st)
    (EvFetch (fullUrl (process_env env) url)
             (request_config (process_env env) st o) res).
Proof. split; [reflexivity|]. exists (accessToken st). now destruct st. Qed.

Lemma options_eta (o : RequestOptions) :
  mkOptions (opt_method o) (opt_headers o) (opt_body o) = o.
Proof. now destruct o. Qed.

Lemma count_cons (p : Event → bool) (ev : Event) (evs : list Event) :
  count p (ev :: evs) = ((if p ev then 1 else 0) + count p evs)%nat.
Proof. unfold count. cbn [List.filter]. now destruct (p ev). Qed.

Ltac close_run evs :=
  match goal with
  | H : (_, _) = (_, _) |- _ => inversion H; subst; clear H
  end;
  exists evs;
  cbn [record_event write_token log store setAccessToken refreshToken settled];
  rewrite ?count_cons;
  cbn [is_fetch is_fetch_401 is_refresh is_accepted_refresh is_set_token];
  unfold refresh_accepted;
  repeat (match goal with
          | H : ?x = _ |- context [?x] => rewrite H
          end; cbn beta iota);
  cbn [negb andb];
  change (count _ []) with 0%nat;
  split_and!;
  try reflexivity; try lia; try done;
  try (rewrite <- ?app_assoc; reflexivity);
  try (eexists _, _; reflexivity);
  try (repeat match goal with
       | |- Forall _ (_ :: _) =>
           constructor; [first [apply original_request_now | exact I]|]
       | |- Forall _ [] => constructor
       end).

(** The events that [request] adds to the history, whatever the fuel. *)
Lemma request_trace (env : Env) (fuel : nat) :
  ∀ (w : World) (url : string) (o : RequestOptions) (r : Result) (w' : World),
    request fuel env w url o = (r, w') →
    ∃ evs,
      log w' = log w ++ evs
      ∧ refreshToken (store w') = refreshToken (store w)
      ∧ (count is_accepted_refresh evs = 0%nat → store w' = store w)
      ∧ count is_set_token evs = count is_accepted_refresh evs
      ∧ Forall (original_request env url o (refreshToken (store w))) evs
      ∧ count is_refresh evs =
          (if truthy (refreshToken (store w)) then count is_fetch_401 evs
           else 0%nat)
      ∧ count is_fetch evs =
          (count is_accepted_refresh evs + (if settled r then 1 else 0))%nat
      ∧ (count is_fetch evs ≤ fuel)%nat
      ∧ match fuel with
        | O => evs = []
        | S _ => ∃ res rest,
            evs = EvFetch (fullUrl (process_env env) url)
                    (request_config (process_env env) (store w) o) res :: rest
        end.
Proof.
  induction fuel as [|fuel IH]; intros w url o r w' H.
  - cbn in H. inversion H; subst. exists []. rewrite app_nil_r.
    split_and!; try done. now destruct (truthy _).
  - cbn [request] in H.
    set (full := fullUrl (process_env env) url) in *.
    set (config := request_config (process_env env) (store w) o) in *.
    destruct (fetch env (log w) full config) as [|response] eqn:Hf.
    { destruct (truthy (refreshToken (store w))) eqn:Ht;
      close_run [EvFetch full config FetchRejects]. }
    destruct (ok response) eqn:Hok.
    { destruct (truthy (refreshToken (store w))) eqn:Ht;
      close_run [EvFetch full config (FetchResolves response)]. }
    destruct (resp_status response =? 401) eqn:H401.
    2:{ destruct (resp_json response);
        destruct (truthy (refreshToken (store w))) eqn:Ht;
        close_run [EvFetch full config (FetchResolves response)]. }
    unfold handleAuthError in H.
    cbn [record_event store log] in H.
    destruct (truthy (refreshToken (store w))) eqn:Ht; cbn [negb] in H.
    2:{ close_run [EvFetch full config (FetchResolves response)]. }
    set (hist := log w ++ [EvFetch full config (FetchResolves response)]) in *.
    destruct (getRefreshToken env hist (store w)) as [e|j] eqn:Hr.
    { close_run [EvFetch full config (FetchResolves response);
                 EvRefresh (RefreshRejects e)]. }
    destruct (property j "error") as [err|] eqn:Hp.
    2:{ close_run [EvFetch full config (FetchResolves response);
                   EvRefresh (RefreshResolves j)]. }
    destruct (is_string err invalid_refresh_token) eqn:Hs.
    { close_run [EvFetch full config (FetchResolves response);
                 EvRefresh (RefreshResolves j)]. }
    rewrite options_eta in H.
    apply IH in H as (evs & Hlog & Hrt & Hst & Hset & Hall & Href & Hfetch & Hfuel & _).
    cbn [write_token record_event log store setAccessToken refreshToken] in *.
    exists (EvFetch full config (FetchResolves response)
            :: EvRefresh (RefreshResolves j)
            :: EvSetAccessToken (access_token j) :: evs).
    rewrite Ht in Href.
    rewrite !count_cons.
    cbn [is_fetch is_fetch_401 is_refresh is_accepted_refresh is_set_token].
    unfold refresh_accepted. rewrite Hp, Hs, Hok, H401. cbn [negb andb].
    split_and!; try lia.
    + rewrite Hlog. unfold hist. now rewrite <- !app_assoc.
    + exact Hrt.
    + constructor; [apply original_request_now|].
      constructor; [exact I|]. constructor; [exact I|]. exact Hall.
    + eexists _, _; reflexivity.
Qed.

Lemma count_app (p : Event → bool) (l1 l2 : list Event) :
  count p (l1 ++ l2) = (count p l1 + count p l2)%nat.
Proof. unfold count. now rewrite List.filter_app, length_app. Qed.

Lemma HttpError_new_not_null (st : Z) (err : Json) :
  err ≠ JNull →
  ∃ e, HttpError_new st err = Some e ∧ status e = st ∧ error e = err.
Proof.
  intros Hn. unfold HttpError_new.
  destruct err as [| | | | |fields]; try (now destruct Hn); cbn;
    try (eexists; split; [reflexivity|split; reflexivity]).
  destruct (get_field "message" fields) as [[]|];
    eexists; split; try reflexivity; split; reflexivity.
Qed.

(** *** Claims about [request] *)

(** C3. When the response is a 401 and the store holds no refresh token
    (absent or empty), [request] fails at once with the
    invalid-refresh-token error (status 401, payload
    [{error: 'invalid_refresh_token'}]); the only event of the run is the
    original [fetch], so the refresh endpoint is not called. *)
Theorem request_401_without_refresh_token (env : Env) (fuel : nat)
    (w : World) (url : string) (o : RequestOptions) (response : Response) :
  fetch env (log w) (fullUrl (process_env env) url)
        (request_config (process_env env) (store w) o) = FetchResolves response →
  resp_status response = 401 →
  truthy (refreshToken (store w)) = false →
  request (S fuel) env w url o =
    (Settled (Thrown (EHttp
       (mkHttpError (Stringified (JObj [("error", JStr "invalid_refresh_token")]))
                    401 (JObj [("error", JStr "invalid_refresh_token")])))),
     record_event (EvFetch (fullUrl (process_env env) url)
                     (request_config (process_env env) (store w) o)
                     (FetchResolves response)) w)
  ∧ count is_refresh (log (snd (request (S fuel) env w url o)))
    = count is_refresh (log w).
Proof.
  intros Hf H401 Ht.
  assert (E : request (S fuel) env w url o =
    (Settled (Thrown (EHttp
       (mkHttpError (Stringified (JObj [("error", JStr "invalid_refresh_token")]))
                    401 (JObj [("error", JStr "invalid_refresh_token")])))),
     record_event (EvFetch (fullUrl (process_env env) url)
                     (request_config (process_env env) (store w) o)
                     (FetchResolves response)) w)).
  { cbn [request]. rewrite Hf. unfold ok. rewrite H401.
    cbn [Z.leb Z.compare Pos.compare Pos.compare_cont andb Z.eqb Pos.eqb].
    unfold handleAuthError. cbn [record_event store]. rewrite Ht.
    reflexivity. }
  split; [exact E|]. rewrite E. cbn [snd record_event log].
  rewrite count_app. cbn. lia.
Qed.

Lemma request_401_without_refresh_token_witness :
  request 1 env_always_401 world_no_refresh "users" get_users =
    (Settled (Thrown (EHttp
       (mkHttpError (Stringified (JObj [("error", JStr "invalid_refresh_token")]))
                    401 (JObj [("error", JStr "invalid_refresh_token")])))),
     record_event (EvFetch (fullUrl example_env "users")
                     (request_config example_env (store world_no_refresh) get_users)
                     (FetchResolves unauthorized)) world_no_refresh)
  ∧ count is_refresh
      (log (snd (request 1 env_always_401 world_no_refresh "users" get_users)))
    = count is_refresh (log world_no_refresh).
Proof.
  apply (request_401_without_refresh_token env_always_401 0 world_no_refresh
           "users" get_users unauthorized); reflexivity.
Defined.

(** C2, as the code has it. A response that is neither ok nor a 401 makes
    [request] fail with an [HttpError]. When the body parses as JSON other
    than [null], the error carries the status of the response and the
    parsed body as its payload. When the body does not parse (or is
    [null]), the [catch] clause turns the failure into the status 500 with
    the payload [{error: 'Network error'}]. In both cases the only event
    is the original [fetch]. *)
Theorem request_api_error (env : Env) (fuel : nat) (w : World) (url : string)
    (o : RequestOptions) (response : Response) :
  fetch env (log w) (fullUrl (process_env env) url)
        (request_config (process_env env) (store w) o) = FetchResolves response →
  ok response = false →
  resp_status response ≠ 401 →
  let w1 := record_event (EvFetch (fullUrl (process_env env) url)
                            (request_config (process_env env) (store w) o)
                            (FetchResolves response)) w in
  (∀ err, resp_json response = Some err → err ≠ JNull →
     ∃ e, request (S fuel) env w url o = (Settled (Thrown (EHttp e)), w1)
          ∧ status e = resp_status response ∧ error e = err)
  ∧ (resp_json response = None ∨ resp_json response = Some JNull →
     request (S fuel) env w url o =
       (Settled (Thrown (EHttp
          (mkHttpError (Stringified (JObj [("error", JStr "Network error")]))
                       500 (JObj [("error", JStr "Network error")])))), w1)).
Proof.
  intros Hf Hok H401 w1.
  apply Z.eqb_neq in H401.
  split.
  - intros err Hj Hn.
    destruct (HttpError_new_not_null (resp_status response) err Hn)
      as (e & He & Hst & Herr).
    exists e. split; [|now split].
    cbn [request]. rewrite Hf, Hok, H401, Hj.
    unfold throw_new_HttpError. now rewrite He.
  - intros [Hj|Hj]; cbn [request]; now rewrite Hf, Hok, H401, Hj.
Qed.

Lemma request_api_error_witness :
  (∃ e, request 1 env_json_404 world0 "users" get_users
        = (Settled (Thrown (EHttp e)),
           record_event (EvFetch (fullUrl example_env "users")
                           (request_config example_env store0 get_users)
                           (FetchResolves (mkResponse 404 (Some not_found_body))))
                        world0)
        ∧ status e = 404 ∧ error e = not_found_body)
  ∧ request 1 env_html_404 world0 "users" get_users
    = (Settled (Thrown (EHttp
         (mkHttpError (Stringified (JObj [("error", JStr "Network error")]))
                      500 (JObj [("error", JStr "Network error")])))),
       record_event (EvFetch (fullUrl example_env "users")
                       (request_config example_env store0 get_users)
                       (FetchResolves (mkResponse 404 None))) world0).
Proof.
  split.
  - apply (proj1 (request_api_error env_json_404 0 world0 "users" get_users
                    (mkResponse 404 (Some not_found_body))
                    eq_refl eq_refl ltac:(discriminate))
             not_found_body eq_refl).
    discriminate.
  - apply (proj2 (request_api_error env_html_404 0 world0 "users" get_users
                    (mkResponse 404 None)
                    eq_refl eq_refl ltac:(discriminate))).
    now left.
Defined.

(** C2 as stated fails: the backend answers 404 with a body that is not
    JSON, and the error that [request] throws has status 500, not 404. *)
Lemma api_error_status_counterexample :
  fetch env_html_404 (log world0) (fullUrl example_env "users")
        (request_config example_env store0 get_users)
    = FetchResolves (mkResponse 404 None)
  ∧ fst (request 1 env_html_404 world0 "users" get_users)
    = Settled (Thrown (EHttp
        (mkHttpError (Stringified (JObj [("error", JStr "Network error")]))
                     500 (JObj [("error", JStr "Network error")]))))
  ∧ ¬ (∃ e, fst (request 1 env_html_404 world0 "users" get_users)
             = Settled (Thrown (EHttp e)) ∧ status e = 404).
Proof.
  split; [reflexivity|]. split; [reflexivity|].
  intros (e & He & Hst). cbn in He. inversion He; subst e. discriminate.
Qed.

(** The example of the specification: a GET answered 404 with the body
    [{message: "not found"}] fails with status 404 and that message. *)
Example not_found_example :
  fst (request 1 env_json_404 world0 "users" get_users)
  = Settled (Thrown (EHttp
      (mkHttpError (OwnMessage "not found") 404 not_found_body))).
Proof. reflexivity. Qed.

(** One step of the 401 path: with a refresh token in the store and a
    refresh call that resolves without reporting [invalid_refresh_token],
    [request] calls the refresh endpoint once, stores the token it got, and
    runs [request] again on the same URL and options. *)
Lemma request_401_refresh_step (env : Env) (fuel : nat) (w : World)
    (url : string) (o : RequestOptions) (response : Response) (j : Json) :
  let ev := EvFetch (fullUrl (process_env env) url)
              (request_config (process_env env) (store w) o)
              (FetchResolves response) in
  fetch env (log w) (fullUrl (process_env env) url)
        (request_config (process_env env) (store w) o) = FetchResolves response →
  resp_status response = 401 →
  truthy (refreshToken (store w)) = true →
  getRefreshToken env (log w ++ [ev]) (store w) = RefreshResolves j →
  refresh_accepted j = true →
  request (S fuel) env w url o =
    request fuel env
      (write_token (access_token j)
         (record_event (EvRefresh (RefreshResolves j)) (record_event ev w)))
      url o.
Proof.
  intros ev Hf H401 Ht Hr Hacc.
  cbn [request]. rewrite Hf. unfold ok. rewrite H401.
  cbn [Z.leb Z.compare Pos.compare Pos.compare_cont andb Z.eqb Pos.eqb].
  unfold handleAuthError. cbn [record_event store log]. rewrite Ht.
  cbn [negb]. fold ev. rewrite Hr.
  unfold refresh_accepted in Hacc.
  destruct (property j "error") as [err|]; [|discriminate].
  apply negb_true_iff in Hacc. rewrite Hacc.
  now rewrite options_eta.
Qed.




(** A retry loop is possible: against a backend that answers 401 whatever
    the token, the request never settles, and each further step is one
    more refresh call. *)
Lemma request_can_loop (fuel : nat) :
  ∀ w, truthy (refreshToken (store w)) = true →
    fst (request fuel env_always_401 w "users" get_users) = Pending
    ∧ count is_refresh
        (log (snd (request fuel env_always_401 w "users" get_users)))
      = (count is_refresh (log w) + fuel)%nat.
Proof.
  induction fuel as [|fuel IH]; intros w Ht.
  - cbn. split; [reflexivity|lia].
  - rewrite (request_401_refresh_step env_always_401 fuel w "users" get_users
               unauthorized fresh_token); try reflexivity; try exact Ht.
    destruct (IH (write_token (access_token fresh_token)
         (record_event (EvRefresh (RefreshResolves fresh_token))
            (record_event (EvFetch (fullUrl (process_env env_always_401) "users")
               (request_config (process_env env_always_401) (store w) get_users)
               (FetchResolves unauthorized)) w)))) as [H1 H2].
    { exact Ht. }
    split; [exact H1|]. rewrite H2.
    cbn [write_token record_event log]. rewrite !count_app. cbn. lia.
Qed.



(** The paths without a 401: a transport failure, an ok response and an
    API error each end the run after the one [fetch], with the store as it
    was. *)
Lemma request_settles_without_401 (env : Env) (fuel : nat) (w : World)
    (url : string) (o : RequestOptions) (res : FetchResult) :
  let ev := EvFetch (fullUrl (process_env env) url)
              (request_config (process_env env) (store w) o) res in
  fetch env (log w) (fullUrl (process_env env) url)
        (request_config (process_env env) (store w) o) = res →
  is_fetch_401 ev = false →
  snd (request (S fuel) env w url o) = record_event ev w
  ∧ settled (fst (request (S fuel) env w url o)) = true.
Proof.
  intros ev Hf H. cbn [request]. rewrite Hf. unfold ev in *.
  destruct res as [|response]; [now split|].
  cbn [is_fetch_401] in H.
  destruct (ok response); [now split|].
  cbn [negb andb] in H. rewrite H.
  now destruct (resp_json response).
Qed.

(** C10. [clients.post] and [clients.put] called with the empty string as
    body issue their [fetch] (at least one) without any body, the retries
    included. In general the configuration of [request] has no body
    exactly when the caller's body is absent or the empty string. *)
Theorem empty_body_is_omitted (env : Env) (fuel : nat) (w : World)
    (url : string) (headers : gmap string string) :
  (∃ evs, log (snd (post (S fuel) env w url (BodyText "") headers))
          = log w ++ evs
          ∧ (1 ≤ count is_fetch evs)%nat ∧ Forall carries_no_body evs)
  ∧ (∃ evs, log (snd (put (S fuel) env w url (BodyText "") headers))
            = log w ++ evs
            ∧ (1 ≤ count is_fetch evs)%nat ∧ Forall carries_no_body evs)
  ∧ (∀ (st : AuthStore) (o : RequestOptions),
       init_body (request_config (process_env env) st o) = None
       ↔ opt_body o = None ∨ opt_body o = Some (BodyText "")).
Proof.
  assert (G : ∀ m, ∃ evs,
    log (snd (request (S fuel) env w url
                (mkOptions m headers (Some (BodyText ""))))) = log w ++ evs
    ∧ (1 ≤ count is_fetch evs)%nat ∧ Forall carries_no_body evs).
  { intros m.
    destruct (request (S fuel) env w url
                (mkOptions m headers (Some (BodyText "")))) as [r w'] eqn:E.
    destruct (request_trace env _ w url _ _ _ E)
      as (evs & Hlog & _ & _ & _ & Hall & _ & _ & _ & (res & rest & Hfirst)).
    exists evs. split; [exact Hlog|]. split.
    - rewrite Hfirst, count_cons. cbn [is_fetch]. lia.
    - eapply Forall_impl; [exact Hall|].
      intros [u c ?| |]; cbn; try done. now intros [_ [tok ->]]. }
  split; [apply G|]. split; [apply G|].
  intros st [m h b]. cbn [request_config init_body opt_body].
  destruct b as [[s|bytes]|]; cbn [body_truthy].
  - destruct (String.eqb_spec s ""); cbn [negb]; subst.
    + split; auto.
    + split; [discriminate|]. intros [?|?]; congruence.
  - cbn. split; [discriminate|]. intros [?|?]; congruence.
  - split; auto.
Qed.

End HttpFacts.

(* ===================================================================== *)
(** ** Facts about the activity-log filter *)
(* ===================================================================== *)

Module ActivityLogFacts.
Import Js ActivityLog ActivityScenario.

(** *** [transformCategory] *)

Lemma is_space_lower_char (c : ascii) : is_space (lower_char c) = is_space c.
Proof. destruct c as [[] [] [] [] [] [] [] []]; reflexivity. Qed.

Lemma toLowerCase_skip_spaces (s : string) :
  toLowerCase (skip_spaces s) = skip_spaces (toLowerCase s).
Proof.
  induction s as [|c s IH]; [reflexivity|].
  cbn [skip_spaces toLowerCase]. rewrite is_space_lower_char.
  destruct (is_space c); [exact IH|reflexivity].
Qed.

Lemma replace_space_runs_in_run (s : string) :
  replace_space_runs true s = replace_space_runs false (skip_spaces s).
Proof.
  induction s as [|c s IH]; [reflexivity|].
  cbn [replace_space_runs skip_spaces].
  destruct (is_space c) eqn:E; [exact IH|].
  cbn [replace_space_runs]. now rewrite E.
Qed.

Lemma replace_space_runs_no_space (b : bool) (s : string) :
  no_space (replace_space_runs b s) = true.
Proof.
  revert b. induction s as [|c s IH]; intros b; [reflexivity|].
  cbn [replace_space_runs].
  destruct (is_space c) eqn:E.
  - destruct b; [apply IH|]. cbn [no_space]. now rewrite IH.
  - cbn [no_space]. now rewrite E, IH.
Qed.

Lemma transformCategory_normalizes : normalizes transformCategory.
Proof.
  unfold normalizes, transformCategory. split_and!.
  - reflexivity.
  - intros c s Hc. cbn [toLowerCase replace_space_runs].
    now rewrite is_space_lower_char, Hc.
  - intros c s Hc. cbn [toLowerCase replace_space_runs].
    rewrite is_space_lower_char, Hc.
    now rewrite replace_space_runs_in_run, toLowerCase_skip_spaces.
Qed.

Lemma skip_spaces_length (s : string) :
  (String.length (skip_spaces s) ≤ String.length s)%nat.
Proof.
  induction s as [|c s IH]; [reflexivity|].
  cbn [skip_spaces]. destruct (is_space c); cbn [String.length]; lia.
Qed.

(** The equations leave no choice: they define [transformCategory]. *)
Lemma normalizes_unique (f : string → string) :
  normalizes f → ∀ s, f s = transformCategory s.
Proof.
  intros (F0 & F1 & F2).
  destruct transformCategory_normalizes as (T0 & T1 & T2).
  assert (G : ∀ n s, (String.length s ≤ n)%nat → f s = transformCategory s).
  { induction n as [|n IH]; intros [|c s] Hlen; try (now rewrite F0, T0).
    - cbn in Hlen. lia.
    - cbn [String.length] in Hlen.
      destruct (is_space c) eqn:E.
      + rewrite F2, T2 by exact E. f_equal. apply IH.
        pose proof (skip_spaces_length s). lia.
      + rewrite F1, T1 by exact E. f_equal. apply IH. lia. }
  intros s. now apply (G (String.length s)).
Qed.

Example transformCategory_examples :
  transformCategory "Security Alert" = "security_alert"
  ∧ transformCategory "Account" = "account"
  ∧ transformCategory "Two   wide
gaps" = "two_wide_gaps"
  ∧ transformCategory " padded " = "_padded_".
Proof. repeat split; reflexivity. Qed.

(** *** Lists *)

Lemma array_includes_In (categories : list string) (c : string) :
  array_includes categories c = true ↔ In c categories.
Proof.
  unfold array_includes. rewrite existsb_exists. split.
  - intros (x & Hx & E). apply String.eqb_eq in E. now subst.
  - intros H. exists c. split; [exact H|apply String.eqb_refl].
Qed.

Lemma filter_filter {A : Type} (p q : A → bool) (l : list A) :
  List.filter p (List.filter q l) = List.filter (fun x => q x && p x) l.
Proof.
  induction l as [|x l IH]; [reflexivity|].
  cbn [List.filter]. destruct (q x); cbn [andb List.filter]; now rewrite IH.
Qed.

Lemma filter_sublist {A : Type} (p : A → bool) (l : list A) :
  sublist (List.filter p l) l.
Proof.
  induction l as [|x l IH]; [constructor|].
  cbn [List.filter]. destruct (p x); now constructor.
Qed.

Lemma narrow_items_cons (p : ActivityItem → bool) (g : ActivityGroup)
    (l : list ActivityGroup) :
  narrow_items p (g :: l) =
    if has_items (restrict p g) then restrict p g :: narrow_items p l
    else narrow_items p l.
Proof. reflexivity. Qed.

Lemma narrow_items_ext (p q : ActivityItem → bool) (l : list ActivityGroup) :
  (∀ i, p i = q i) → narrow_items p l = narrow_items q l.
Proof.
  intros H. unfold narrow_items. f_equal. apply map_ext. intros g.
  unfold restrict. f_equal. now apply List.filter_ext.
Qed.

Lemma restrict_twice (p q : ActivityItem → bool) (g : ActivityGroup) :
  restrict p (restrict q g) = restrict (fun i => q i && p i) g.
Proof. unfold restrict. cbn [date items]. now rewrite filter_filter. Qed.

Lemma has_items_false (g : ActivityGroup) :
  has_items g = false ↔ items g = [].
Proof. unfold has_items. now destruct (items g). Qed.

Lemma narrow_items_twice (p q : ActivityItem → bool) (l : list ActivityGroup) :
  narrow_items p (narrow_items q l) = narrow_items (fun i => q i && p i) l.
Proof.
  induction l as [|g l IH]; [reflexivity|].
  rewrite (narrow_items_cons q), (narrow_items_cons (fun i => q i && p i)).
  rewrite <- restrict_twice.
  destruct (has_items (restrict q g)) eqn:E.
  - rewrite narrow_items_cons, IH. reflexivity.
  - rewrite IH. apply has_items_false in E.
    assert (E' : has_items (restrict p (restrict q g)) = false).
    { apply has_items_false. unfold restrict at 1. cbn [items]. now rewrite E. }
    now rewrite E'.
Qed.

Lemma narrow_items_comm (p q : ActivityItem → bool) (l : list ActivityGroup) :
  narrow_items p (narrow_items q l) = narrow_items q (narrow_items p l).
Proof.
  rewrite !narrow_items_twice. apply narrow_items_ext. intros i.
  apply andb_comm.
Qed.

Lemma filter_by_date_narrow (d : TimeValue → bool) (p : ActivityItem → bool)
    (l : list ActivityGroup) :
  List.filter (fun g => d (date g)) (narrow_items p l)
  = narrow_items p (List.filter (fun g => d (date g)) l).
Proof.
  induction l as [|g l IH]; [reflexivity|].
  rewrite narrow_items_cons. cbn [List.filter].
  destruct (has_items (restrict p g)) eqn:E, (d (date g)) eqn:D;
    cbn [List.filter restrict date]; rewrite ?D, ?narrow_items_cons, ?E, IH;
    reflexivity.
Qed.

(** *** The three steps commute *)

Lemma date_text_comm query range l :
  date_step range (text_step query l) = text_step query (date_step range l).
Proof.
  unfold date_step, text_step.
  destruct range as [[[fromDate|] [toDate|]]|], (truthy (Some query));
    try reflexivity.
  apply (filter_by_date_narrow
           (fun t => num_ge t fromDate && num_le t toDate)).
Qed.

Lemma date_category_comm categories range l :
  date_step range (category_step categories l)
  = category_step categories (date_step range l).
Proof.
  unfold date_step, category_step.
  destruct range as [[[fromDate|] [toDate|]]|], (0 <? length categories)%nat;
    try reflexivity.
  apply (filter_by_date_narrow
           (fun t => num_ge t fromDate && num_le t toDate)).
Qed.

Lemma text_category_comm query categories l :
  text_step query (category_step categories l)
  = category_step categories (text_step query l).
Proof.
  unfold text_step, category_step.
  destruct (truthy (Some query)), (0 <? length categories)%nat;
    try reflexivity.
  apply narrow_items_comm.
Qed.

(** C4. Applying the three predicates one after the other in any of the
    six orders gives the list that [filterActivities] computes in the
    order date, text, category. *)
Theorem filter_order_irrelevant (order : list Predicate) (query : string)
    (range : option DateRange) (categories : list string)
    (source : list ActivityGroup) :
  Permutation order [ByDate; ByText; ByCategory] →
  apply_in_order order query range categories source
  = filtered_value source query range categories.
Proof.
  intros H.
  assert (Hlen := Permutation_length H).
  assert (Hnd : List.NoDup order).
  { eapply Permutation_NoDup; [symmetry; exact H|].
    repeat constructor; cbn; intuition discriminate. }
  destruct order as [|a [|b [|c [|]]]]; try discriminate Hlen.
  unfold apply_in_order, filtered_value. cbn [fold_left].
  inversion Hnd as [|? ? Ha Hnd']; subst.
  inversion Hnd' as [|? ? Hb _]; subst.
  assert (Hc : In ByDate [a; b; c] ∧ In ByText [a; b; c]
               ∧ In ByCategory [a; b; c]).
  { split_and!; eapply Permutation_in; try (symmetry; exact H); cbn; auto. }
  destruct a, b, c; cbn [apply_predicate];
    try (exfalso; cbn in *; intuition discriminate).
  - reflexivity.
  - apply text_category_comm.
  - now rewrite date_text_comm.
  - now rewrite date_category_comm, date_text_comm.
  - now rewrite date_category_comm, text_category_comm.
  - now rewrite date_text_comm, date_category_comm, text_category_comm.
Qed.

Lemma filter_order_irrelevant_witness :
  apply_in_order [ByCategory; ByText; ByDate] "login" (Some february)
                 ["account"] example_source
  = filtered_value example_source "login" (Some february) ["account"].
Proof.
  apply filter_order_irrelevant.
  exact (Permutation_sym (Permutation_rev [ByDate; ByText; ByCategory])).
Defined.

(** *** The category predicate *)



(** The examples of the specification. *)
Example filter_examples :
  filtered_value example_source "login" None []
    = [mkGroup jan10 [login_item]]
  ∧ filtered_value example_source "" None ["account"]
    = [mkGroup jan10 [profile_item]]
  ∧ filtered_value example_source "" (Some february) [] = []
  ∧ filtered_value example_source "" None [] = example_source.
Proof. repeat split; reflexivity. Qed.

(** *** The output is a part of the source *)

Lemma derives_from_refl (g : ActivityGroup) : derives_from g g.
Proof. split; reflexivity. Qed.

Lemma derives_from_restrict (p : ActivityItem → bool) (g' g : ActivityGroup) :
  derives_from g' g → derives_from (restrict p g') g.
Proof.
  intros [Hd Hi]. split; [exact Hd|].
  unfold restrict. cbn [items]. etransitivity; [apply filter_sublist|exact Hi].
Qed.

Lemma part_of_refl (l : list ActivityGroup) : part_of l l.
Proof.
  exists l. split; [reflexivity|].
  induction l; constructor; auto using derives_from_refl.
Qed.

Lemma part_of_filter (f : ActivityGroup → bool) (out src : list ActivityGroup) :
  part_of out src → part_of (List.filter f out) src.
Proof.
  intros (origin & Hs & HF).
  assert (G : ∃ o', sublist o' origin
                    ∧ Forall2 derives_from (List.filter f out) o').
  { clear Hs. induction HF as [|x y out origin Hxy HF (o' & Hs' & HF')].
    - exists []. split; constructor.
    - cbn [List.filter]. destruct (f x).
      + exists (y :: o'). split; now constructor.
      + exists o'. split; [now constructor|exact HF']. }
  destruct G as (o' & Hs' & HF'). exists o'. split; [|exact HF'].
  etransitivity; eassumption.
Qed.

Lemma part_of_restrict (p : ActivityItem → bool) (out src : list ActivityGroup) :
  part_of out src → part_of (map (restrict p) out) src.
Proof.
  intros (origin & Hs & HF). exists origin. split; [exact Hs|].
  clear Hs.
  induction HF as [|x y out origin Hxy HF IH]; cbn [map]; constructor.
  - now apply derives_from_restrict.
  - exact IH.
Qed.

Lemma part_of_narrow_items (p : ActivityItem → bool)
    (out src : list ActivityGroup) :
  part_of out src → part_of (narrow_items p out) src.
Proof. intros H. now apply part_of_filter, part_of_restrict. Qed.

Lemma part_of_filtered_value (source : list ActivityGroup) (query : string)
    (range : option DateRange) (categories : list string) :
  part_of (filtered_value source query range categories) source.
Proof.
  unfold filtered_value, category_step, text_step, date_step.
  destruct (0 <? length categories)%nat, (truthy (Some query)),
    range as [[[fromDate|] [toDate|]]|];
    repeat first [apply part_of_narrow_items | apply part_of_filter];
    apply part_of_refl.
Qed.

Lemma part_of_In (out src : list ActivityGroup) (g' : ActivityGroup) :
  part_of out src → In g' out →
  ∃ g, In g src ∧ derives_from g' g.
Proof.
  intros (origin & Hs & HF) Hin.
  assert (G : ∃ g, In g origin ∧ derives_from g' g).
  { clear Hs. induction HF as [|x y out origin Hxy HF IH]; [destruct Hin|].
    destruct Hin as [->|Hin].
    - exists y. split; [now left|exact Hxy].
    - destruct (IH Hin) as (g & Hg & Hd). exists g. split; [now right|exact Hd]. }
  destruct G as (g & Hg & Hd). exists g. split; [|exact Hd].
  apply list_elem_of_In. eapply elem_of_sublist; [|exact Hs].
  now apply list_elem_of_In.
Qed.

(** C9. [filterActivities] leaves the source array [activities] as it
    was, and what it stores in [filteredActivities] is a part of the
    source: its groups derive, in order, from groups of the source, each
    with the date of its source group and with items taken, in order,
    from the items of that group. *)
Theorem filter_output_part_of_source (query : string)
    (range : option DateRange) (categories : list string) (p : Page) :
  let p' := filterActivities query range categories p in
  activities p' = activities p
  ∧ part_of (filteredActivities p') (activities p)
  ∧ (∀ g', In g' (filteredActivities p') →
       ∃ g, In g (activities p) ∧ date g' = date g
            ∧ ∀ item, In item (items g') → In item (items g)).
Proof.
  cbn [filterActivities setFilteredActivities activities filteredActivities].
  split; [reflexivity|]. split; [apply part_of_filtered_value|].
  intros g' Hin.
  destruct (part_of_In _ _ g' (part_of_filtered_value _ _ _ _) Hin)
    as (g & Hg & Hd & Hi).
  exists g. split_and!; try done.
  intros item Hitem. apply list_elem_of_In.
  eapply elem_of_sublist; [|exact Hi]. now apply list_elem_of_In.
Qed.

End ActivityLogFacts.

(* ===================================================================== *)
(** ** More about the HTTP client *)
(* ===================================================================== *)

Module HttpMore.
Import Js JsFacts Http Scenario MoreScenario HttpFacts.

(** *** The constructor of [HttpError] *)


(** *** URL resolution at the edges *)

Lemma startsWith_empty (s : string) : startsWith s "" = true.
Proof. now destruct s. Qed.

Lemma startsWith_http_strip (b : string) :
  startsWith b "http" = true →
  ∀ rest, startsWith (strip_trailing_slash b +:+ rest) "http" = true.
Proof.
  intros H rest.
  destruct b as [|c1 [|c2 [|c3 [|c4 b]]]]; cbn [startsWith] in H;
    repeat match type of H with
    | context [Ascii.eqb ?a ?c] =>
        destruct (Ascii.eqb_spec a c); [subst c|discriminate H]
    end; try discriminate H.
  destruct b as [|c5 b].
  - apply (startsWith_empty rest).
  - change (startsWith (strip_trailing_slash (String c5 b) +:+ rest) "" = true).
    apply startsWith_empty.
Qed.

(** X2. Resolving is idempotent when the configured base URL itself
    starts with "http": the resolved URL of any [url] is taken for
    absolute and resolves to itself. *)
Theorem fullUrl_idempotent (env : ProcessEnv) (base url : string) :
  REACT_APP_PUBLIC_BACKEND_URL env = Some base →
  startsWith base "http" = true →
  fullUrl env (fullUrl env url) = fullUrl env url.
Proof.
  intros Henv Hb.
  assert (H : startsWith (fullUrl env url) "http" = true).
  { unfold fullUrl. destruct (startsWith url "http") eqn:E; [exact E|].
    unfold BASE_URL. rewrite Henv. cbn [fmap option_fmap option_map template].
    now apply startsWith_http_strip. }
  unfold fullUrl at 1. now rewrite H.
Qed.

Lemma fullUrl_idempotent_witness :
  fullUrl example_env (fullUrl example_env "/users") = fullUrl example_env "/users".
Proof.
  apply (fullUrl_idempotent example_env "https://api.example.com/" "/users");
    reflexivity.
Defined.

(** X3. When REACT_APP_PUBLIC_BACKEND_URL is not set, a URL that does not
    start with "http" is resolved against the text "undefined": the
    request goes to [undefined/<path>]. *)
Theorem fullUrl_without_base (env : ProcessEnv) (url : string) :
  REACT_APP_PUBLIC_BACKEND_URL env = None →
  startsWith url "http" = false →
  fullUrl env url = "undefined/" +:+ strip_leading_slash url.
Proof.
  intros Henv Hrel. unfold fullUrl, BASE_URL. now rewrite Hrel, Henv.
Qed.

Lemma fullUrl_without_base_witness :
  fullUrl (mkProcessEnv None None None) "/users" = "undefined/users".
Proof.
  apply (fullUrl_without_base (mkProcessEnv None None None) "/users");
    reflexivity.
Defined.

(** *** What the retries send *)








(** X7. [clients.get] and [clients.delete] never send a body: no [fetch]
    of their runs, retries included, carries one. *)
Theorem get_and_delete_carry_no_body (env : Env) (fuel : nat) (w : World)
    (url : string) (headers : gmap string string) :
  (∃ evs, log (snd (get fuel env w url headers)) = log w ++ evs
          ∧ Forall carries_no_body evs)
  ∧ (∃ evs, log (snd (delete fuel env w url headers)) = log w ++ evs
            ∧ Forall carries_no_body evs).
Proof.
  assert (G : ∀ m, ∃ evs,
    log (snd (request fuel env w url (mkOptions m headers None))) = log w ++ evs
    ∧ Forall carries_no_body evs).
  { intros m.
    destruct (request fuel env w url (mkOptions m headers None))
      as [r w'] eqn:E.
    destruct (request_trace env _ w url _ _ _ E)
      as (evs & Hlog & _ & _ & _ & Hall & _).
    exists evs. split; [exact Hlog|].
    eapply Forall_impl; [exact Hall|].
    intros [u c ?| |]; cbn; try done. now intros [_ [tok ->]]. }
  split; apply G.
Qed.

(** *** When the request ends *)

(** X8. Without a 401 there is no retry: when [fetch] rejects or the
    response is not a 401, the request settles after this one [fetch],
    with nothing written to the store and no call of the refresh endpoint.
    It returns a value exactly when the response is ok and its body
    parses, and that value is the parsed body. *)
Theorem one_fetch_without_401 (env : Env) (fuel : nat) (w : World)
    (url : string) (o : RequestOptions) (res : FetchResult) :
  let ev := EvFetch (fullUrl (process_env env) url)
              (request_config (process_env env) (store w) o) res in
  fetch env (log w) (fullUrl (process_env env) url)
        (request_config (process_env env) (store w) o) = res →
  is_fetch_401 ev = false →
  ∃ out, request (S fuel) env w url o = (Settled out, record_event ev w)
         ∧ (∀ v, out = Returned v
                 ↔ ∃ response, res = FetchResolves response
                               ∧ ok response = true
                               ∧ resp_json response = Some v).
Proof.
  intros ev Hf H. subst ev. cbn [request]. rewrite Hf.
  destruct res as [|response].
  { eexists. split; [reflexivity|]. intros v.
    split; [discriminate|]. intros (? & ? & _). discriminate. }
  cbn [is_fetch_401] in H.
  destruct (ok response) eqn:Hok.
  { eexists. split; [reflexivity|]. intros v.
    destruct (resp_json response) as [j|] eqn:Hj.
    - split.
      + intros [= <-]. now exists response.
      + intros (r & [= <-] & _ & E). congruence.
    - split; [discriminate|]. intros (r & [= <-] & _ & E). congruence. }
  cbn [negb andb] in H. rewrite H.
  destruct (resp_json response) as [err|].
  - unfold throw_new_HttpError. destruct (HttpError_new _ err);
      (eexists; split; [reflexivity|]; intros v;
       split; [discriminate|]; intros (r & [= <-] & E & _); congruence).
  - eexists. split; [reflexivity|]. intros v.
    split; [discriminate|]. intros (r & [= <-] & E & _). congruence.
Qed.

Lemma one_fetch_without_401_witness :
  let ev := EvFetch (fullUrl example_env "users")
              (request_config example_env store0 get_users) FetchRejects in
  ∃ out, request 1 env_offline world0 "users" get_users
         = (Settled out, record_event ev world0)
         ∧ (∀ v, out = Returned v
                 ↔ ∃ response, FetchRejects = FetchResolves response
                               ∧ ok response = true
                               ∧ resp_json response = Some v).
Proof.
  apply (one_fetch_without_401 env_offline 0 world0 "users" get_users
           FetchRejects); reflexivity.
Defined.

(** X9. The client puts no bound on its retries: against a backend that
    answers every request with 401 while the refresh endpoint keeps
    accepting, a request made with a refresh token in the store never
    settles, and each further step of it is one more refresh call. *)
Theorem request_never_settles (env : Env) :
  (∀ hist u c, ∃ response,
      fetch env hist u c = FetchResolves response
      ∧ resp_status response = 401) →
  (∀ hist st, ∃ j,
      getRefreshToken env hist st = RefreshResolves j
      ∧ refresh_accepted j = true) →
  ∀ (fuel : nat) (w : World) (url : string) (o : RequestOptions),
    truthy (refreshToken (store w)) = true →
    fst (request fuel env w url o) = Pending
    ∧ count is_refresh (log (snd (request fuel env w url o)))
      = (count is_refresh (log w) + fuel)%nat.
Proof.
  intros Hfetch Hrefresh.
  induction fuel as [|fuel IH]; intros w url o Ht.
  - cbn. split; [reflexivity|lia].
  - destruct (Hfetch (log w) (fullUrl (process_env env) url)
                (request_config (process_env env) (store w) o))
      as (response & Hf & H401).
    destruct (Hrefresh
                (log w ++ [EvFetch (fullUrl (process_env env) url)
                             (request_config (process_env env) (store w) o)
                             (FetchResolves response)]) (store w))
      as (j & Hr & Hacc).
    rewrite (request_401_refresh_step env fuel w url o response j
               Hf H401 Ht Hr Hacc).
    set (w2 := write_token _ _).
    destruct (IH w2 url o) as [H1 H2]; [exact Ht|].
    split; [exact H1|]. rewrite H2. unfold w2.
    cbn [write_token record_event log]. rewrite !count_app. cbn. lia.
Qed.

Lemma request_never_settles_witness :
  fst (request 5 env_always_401 world0 "users" get_users) = Pending
  ∧ count is_refresh (log (snd (request 5 env_always_401 world0 "users" get_users)))
    = (count is_refresh (log world0) + 5)%nat.
Proof.
  apply (request_never_settles env_always_401).
  - intros hist u c. exists unauthorized. split; reflexivity.
  - intros hist st. exists fresh_token. split; reflexivity.
  - reflexivity.
Defined.



End HttpMore.

(* ===================================================================== *)
(** ** More about the activity-log filter *)
(* ===================================================================== *)

Module ActivityLogMore.
Import Js ActivityLog ActivityScenario ActivityPage ActivityLogFacts.

(** *** [transformCategory] and [toLowerCase] *)

Lemma lower_char_idempotent (c : ascii) : lower_char (lower_char c) = lower_char c.
Proof. destruct c as [[] [] [] [] [] [] [] []]; reflexivity. Qed.

Lemma toLowerCase_idempotent (s : string) :
  toLowerCase (toLowerCase s) = toLowerCase s.
Proof.
  induction s as [|c s IH]; [reflexivity|].
  cbn [toLowerCase]. now rewrite lower_char_idempotent, IH.
Qed.

Lemma toLowerCase_replace_space_runs (b : bool) (s : string) :
  toLowerCase (replace_space_runs b s) = replace_space_runs b (toLowerCase s).
Proof.
  revert b. induction s as [|c s IH]; intros b; [reflexivity|].
  cbn [toLowerCase replace_space_runs]. rewrite is_space_lower_char.
  destruct (is_space c), b; cbn [toLowerCase]; now rewrite ?IH.
Qed.

Lemma replace_space_runs_fixed (s : string) :
  no_space s = true → ∀ b, replace_space_runs b s = s.
Proof.
  induction s as [|c s IH]; intros H b; [reflexivity|].
  cbn [no_space] in H. apply andb_true_iff in H as [Hc Hs].
  apply negb_true_iff in Hc. cbn [replace_space_runs]. rewrite Hc.
  now rewrite IH.
Qed.

(** X11. [transformCategory] is idempotent: a category that is
    already normalised is left as it is, so the normalised categories that
    the toolbar hands over compare with the normalised categories of the
    items. *)
Theorem transformCategory_idempotent (category : string) :
  transformCategory (transformCategory category) = transformCategory category.
Proof.
  unfold transformCategory.
  rewrite toLowerCase_replace_space_runs, toLowerCase_idempotent.
  apply replace_space_runs_fixed, replace_space_runs_no_space.
Qed.

(** *** Each step, exactly *)

Lemma narrow_items_In (p : ActivityItem → bool) (l : list ActivityGroup)
    (g' : ActivityGroup) :
  In g' (narrow_items p l)
  ↔ ∃ g, In g l ∧ g' = restrict p g ∧ items g' ≠ [].
Proof.
  unfold narrow_items. rewrite filter_In, in_map_iff. split.
  - intros [(g & <- & Hg) Hi]. exists g. split_and!; try done.
    intros E. apply has_items_false in E. congruence.
  - intros (g & Hg & -> & Hi). split; [now exists g|].
    destruct (has_items (restrict p g)) eqn:E; [reflexivity|].
    now apply has_items_false in E.
Qed.



(** X13. The search is case-insensitive in the query: two queries with
    the same lowercase form give the same result. *)
Theorem query_case_insensitive (source : list ActivityGroup)
    (q1 q2 : string) (range : option DateRange) (categories : list string) :
  toLowerCase q1 = toLowerCase q2 →
  filtered_value source q1 range categories
  = filtered_value source q2 range categories.
Proof.
  intros H. unfold filtered_value, text_step. rewrite H.
  assert (E : truthy (Some q1) = truthy (Some q2)).
  { destruct q1, q2; try reflexivity; discriminate H. }
  now rewrite E.
Qed.

Lemma query_case_insensitive_witness :
  filtered_value example_source "LOGIN" None []
  = filtered_value example_source "login" None [].
Proof.
  apply (query_case_insensitive example_source "LOGIN" "login" None []).
  reflexivity.
Defined.

(** X14. With a complete range the date step keeps exactly the groups
    whose date lies between the two ends, both included. Hence a range
    whose start is after its end, or one of whose ends is an invalid date,
    leaves nothing, and so does the whole filter. A range that lacks an
    end is ignored. *)
Theorem date_step_exact (l : list ActivityGroup) (fromDate toDate : TimeValue) :
  (∀ g, In g (date_step (Some (mkRange (Some fromDate) (Some toDate))) l)
        ↔ In g l ∧ ∃ a t b, fromDate = Some a ∧ date g = Some t
                            ∧ toDate = Some b ∧ a ≤ t ≤ b)
  ∧ ((∀ a b, fromDate = Some a → toDate = Some b → b < a) →
     ∀ query categories,
       filtered_value l query (Some (mkRange (Some fromDate) (Some toDate)))
                      categories = [])
  ∧ date_step None l = l
  ∧ date_step (Some (mkRange None (Some toDate))) l = l
  ∧ date_step (Some (mkRange (Some fromDate) None)) l = l.
Proof.
  assert (G : ∀ g,
    num_ge (date g) fromDate && num_le (date g) toDate = true
    ↔ ∃ a t b, fromDate = Some a ∧ date g = Some t ∧ toDate = Some b
               ∧ a ≤ t ≤ b).
  { intros g. unfold num_ge, num_le.
    destruct (date g) as [t|], fromDate as [a|], toDate as [b|]; cbn;
      try (split; [discriminate|intros (? & ? & ? & ? & ? & ? & ?); discriminate]).
    - rewrite andb_true_iff, !Z.leb_le. split.
      + intros [? ?]. exists a, t, b. split_and!; auto.
      + intros (? & ? & ? & [= <-] & [= <-] & [= <-] & ? & ?). auto.
    - rewrite andb_false_r.
      split; [discriminate|intros (? & ? & ? & ? & ? & ? & ?); discriminate]. }
  split_and!; try reflexivity.
  - intros g. cbn [date_step]. rewrite filter_In. now rewrite G.
  - intros Hinv query categories.
    assert (E : date_step (Some (mkRange (Some fromDate) (Some toDate))) l = []).
    { cbn [date_step]. induction l as [|g l IH]; [reflexivity|].
      cbn [List.filter].
      destruct (num_ge (date g) fromDate && num_le (date g) toDate) eqn:E;
        [|exact IH].
      apply G in E as (a & t & b & -> & _ & -> & Hle).
      specialize (Hinv a b eq_refl eq_refl). lia. }
    unfold filtered_value. rewrite E.
    unfold text_step, category_step.
    destruct (truthy (Some query)), (0 <? length categories)%nat; reflexivity.
Qed.

Lemma date_step_exact_witness :
  (∀ g, In g (date_step (Some (mkRange (Some (Some 10)) (Some (Some 5))))
                example_source)
        ↔ In g example_source
          ∧ ∃ a t b, Some 10 = Some a ∧ date g = Some t
                     ∧ Some 5 = Some b ∧ a ≤ t ≤ b)
  ∧ (∀ query categories,
       filtered_value example_source query
         (Some (mkRange (Some (Some 10)) (Some (Some 5)))) categories = [])
  ∧ date_step None example_source = example_source
  ∧ date_step (Some (mkRange None (Some (Some 5)))) example_source
    = example_source
  ∧ date_step (Some (mkRange (Some (Some 10)) None)) example_source
    = example_source.
Proof.
  destruct (date_step_exact example_source (Some 10) (Some 5))
    as (H1 & H2 & H3 & H4 & H5).
  split_and!; try assumption.
  apply H2. intros a b [= <-] [= <-]. lia.
Defined.

(** *** Filtering again, and filtering less *)

Lemma filter_idempotent {A : Type} (f : A → bool) (l : list A) :
  List.filter f (List.filter f l) = List.filter f l.
Proof.
  rewrite filter_filter. apply List.filter_ext. intros x. apply andb_diag.
Qed.

Lemma narrow_items_idempotent (p : ActivityItem → bool) (l : list ActivityGroup) :
  narrow_items p (narrow_items p l) = narrow_items p l.
Proof.
  rewrite narrow_items_twice. apply narrow_items_ext. intros i.
  apply andb_diag.
Qed.

Lemma date_step_idempotent range l :
  date_step range (date_step range l) = date_step range l.
Proof.
  unfold date_step.
  destruct range as [[[fromDate|] [toDate|]]|]; try reflexivity.
  apply filter_idempotent.
Qed.

Lemma text_step_idempotent query l :
  text_step query (text_step query l) = text_step query l.
Proof.
  unfold text_step. destruct (truthy (Some query)); [|reflexivity].
  apply narrow_items_idempotent.
Qed.

Lemma category_step_idempotent categories l :
  category_step categories (category_step categories l)
  = category_step categories l.
Proof.
  unfold category_step. destruct (0 <? length categories)%nat; [|reflexivity].
  apply narrow_items_idempotent.
Qed.

(** X15. Filtering is idempotent: applying the same criteria to the
    filtered list changes nothing. *)
Theorem filtered_value_idempotent (source : list ActivityGroup)
    (query : string) (range : option DateRange) (categories : list string) :
  filtered_value (filtered_value source query range categories)
                 query range categories
  = filtered_value source query range categories.
Proof.
  unfold filtered_value.
  rewrite date_category_comm, date_text_comm, date_step_idempotent.
  rewrite text_category_comm, text_step_idempotent.
  apply category_step_idempotent.
Qed.

Lemma narrow_items_has_items (p : ActivityItem → bool) (l : list ActivityGroup) :
  Forall (fun g => items g ≠ []) (narrow_items p l).
Proof.
  apply List.Forall_forall. intros g Hg.
  apply narrow_items_In in Hg as (? & _ & _ & H). exact H.
Qed.

(** X16. As soon as a query or a category is given, no group of the
    result is empty. Without either, the groups of the source pass as they
    are, an empty one included. *)
Theorem no_empty_group_when_narrowed (source : list ActivityGroup)
    (query : string) (range : option DateRange) (categories : list string) :
  (query ≠ "" ∨ categories ≠ [] →
   Forall (fun g => items g ≠ [])
          (filtered_value source query range categories))
  ∧ filtered_value source "" None [] = source.
Proof.
  split; [|reflexivity].
  intros H. unfold filtered_value, category_step.
  destruct categories as [|c cs].
  - destruct H as [H|H]; [|now destruct H].
    cbn [length Nat.ltb Nat.leb]. unfold text_step. cbn [truthy].
    destruct (String.eqb_spec query ""); [contradiction|].
    apply narrow_items_has_items.
  - apply narrow_items_has_items.
Qed.

Lemma no_empty_group_when_narrowed_witness :
  Forall (fun g => items g ≠ [])
         (filtered_value example_source "login" None [])
  ∧ filtered_value example_source "" None [] = example_source.
Proof.
  destruct (no_empty_group_when_narrowed example_source "login" None [])
    as [H1 H2].
  split; [apply H1; left; discriminate|exact H2].
Defined.

Lemma narrow_items_weaken (p q : ActivityItem → bool) (l : list ActivityGroup) :
  (∀ i, p i = true → q i = true) →
  narrow_items p l = narrow_items p (narrow_items q l).
Proof.
  intros H. rewrite narrow_items_twice. apply narrow_items_ext. intros i.
  destruct (p i) eqn:E; [now rewrite (H i E)|apply eq_sym, andb_false_r].
Qed.

(** X17. Selecting more categories shows more: when every category of a
    non-empty selection is also in a second selection, the result for the
    first is a part of the result for the second (same query and range). *)
Theorem more_categories_show_more (source : list ActivityGroup)
    (query : string) (range : option DateRange) (cats cats' : list string) :
  cats ≠ [] →
  (∀ c, In c cats → In c cats') →
  part_of (filtered_value source query range cats)
          (filtered_value source query range cats').
Proof.
  intros Hne Hsub. unfold filtered_value, category_step.
  destruct cats as [|c cs]; [now destruct Hne|].
  destruct cats' as [|c' cs']; [destruct (Hsub c); now left|].
  cbn [length Nat.ltb Nat.leb].
  rewrite (narrow_items_weaken
             (fun item => array_includes (c :: cs) (transformCategory (category item)))
             (fun item => array_includes (c' :: cs') (transformCategory (category item)))).
  - apply part_of_narrow_items, part_of_refl.
  - intros i. rewrite !array_includes_In. apply Hsub.
Qed.

Lemma more_categories_show_more_witness :
  part_of (filtered_value example_source "" None ["account"])
          (filtered_value example_source "" None ["account"; "security_alert"]).
Proof.
  apply more_categories_show_more; [discriminate|].
  intros c [<-|[]]. now left.
Defined.

(** *** The page *)

(** X18. Whatever the toolbar reports and in whatever order, the page
    shows the source filtered by the criteria it currently holds, and the
    source array is the one it started with. *)
Theorem page_shows_current_criteria (source : list ActivityGroup)
    (changes : list Change) :
  let v := session source changes in
  activities (page v) = source
  ∧ filteredActivities (page v)
    = filtered_value source (searchQuery v) (dateRange v) (selectedCategory v).
Proof.
  unfold session.
  assert (G : ∀ v0,
    activities (page v0) = source
    ∧ filteredActivities (page v0)
      = filtered_value source (searchQuery v0) (dateRange v0)
          (selectedCategory v0) →
    let v := fold_left handle changes v0 in
    activities (page v) = source
    ∧ filteredActivities (page v)
      = filtered_value source (searchQuery v) (dateRange v)
          (selectedCategory v)).
  { induction changes as [|c changes IH]; intros v0 [Ha Hf]; [now split|].
    cbn [fold_left]. apply IH.
    destruct c; cbn; now rewrite Ha. }
  apply G. now split.
Qed.

End ActivityLogMore.

(* ===================================================================== *)
(** ** Facts about usePasswordStrength *)
(* ===================================================================== *)

Module PasswordStrengthFacts.
Import PasswordStrength.

Lemma test_class_has_char (cls : ascii → bool) (P : ascii → Prop) (s : string) :
  (∀ c, cls c = true ↔ P c) →
  test_class cls s = true ↔ has_char P s.
Proof.
  intros H. unfold has_char.
  induction s as [|c s IH]; cbn [test_class list_ascii_of_string].
  - split; [discriminate|]. now intros (? & [] & _).
  - rewrite orb_true_iff, IH, H. split.
    + intros [Hc|(d & Hd & Pd)].
      * exists c. split; [now left|exact Hc].
      * exists d. split; [now right|exact Pd].
    + intros (d & [<-|Hd] & Pd); [now left|].
      right. now exists d.
Qed.

Lemma code_between_spec (lo hi : Z) (c : ascii) :
  code_between lo hi c = true ↔ lo ≤ Z.of_N (N_of_ascii c) ≤ hi.
Proof. unfold code_between. rewrite andb_true_iff, !Z.leb_le. tauto. Qed.

Lemma class_special_spec (c : ascii) :
  class_special c = true ↔ is_allowed_special c.
Proof.
  unfold class_special, is_allowed_special. rewrite existsb_exists.
  change (list_ascii_of_string ALLOWED_SPECIAL_CHARS)
    with ["@"; "$"; "!"; "%"; "*"; "?"; "&"]%char.
  split.
  - intros (x & Hx & E). apply Ascii.eqb_eq in E. now subst.
  - intros H. exists c. split; [exact H|apply Ascii.eqb_refl].
Qed.

Lemma test_class_app (cls : ascii → bool) (p q : string) :
  test_class cls (p +:+ q) = test_class cls p || test_class cls q.
Proof.
  induction p as [|c p IH]; [reflexivity|].
  change (String c p +:+ q) with (String c (p +:+ q)).
  cbn [test_class]. now rewrite IH, orb_assoc.
Qed.

Lemma length_app_string (p q : string) :
  String.length (p +:+ q) = (String.length p + String.length q)%nat.
Proof.
  induction p as [|c p IH]; [reflexivity|].
  change (String c p +:+ q) with (String c (p +:+ q)).
  cbn [String.length]. now rewrite IH.
Qed.

(** X19. The verdict, the score and the colour agree: with [n] of the
    four checks passed the score is [25 * n]; [validatePassword] returns
    true exactly when the score is 100, which is exactly when the bar is
    green and [allRequirementsMet] holds; the bar is red for at most one
    check passed, orange for two and yellow for three. *)
Theorem verdict_score_colour (password : string) (h : Hook) :
  let verdict := fst (validatePassword password h) in
  let h' := snd (validatePassword password h) in
  let n := Z.of_nat (length (List.filter (fun b : bool => b)
                               (Object_values (newChecks password)))) in
  strength h' = 25 * n
  ∧ 0 ≤ n ≤ 4
  ∧ (verdict = true ↔ strength h' = 100)
  ∧ allRequirementsMet h' = verdict
  ∧ getStrengthColor h' =
      (if n <=? 1 then "bg-red-500"
       else if n =? 2 then "bg-orange-500"
       else if n =? 3 then "bg-yellow-500"
       else "bg-green-600").
Proof.
  unfold validatePassword, allRequirementsMet, getStrengthColor.
  cbn [fst snd strength checks].
  destruct (newChecks password) as [[] [] [] []]; cbn; repeat split;
    try lia; try discriminate; try reflexivity.
Qed.

(** X20. A password is accepted exactly when it has between 8 and 30
    code units and contains a letter a-z, a letter A-Z, a digit 0-9 and
    one of the characters listed in ALLOWED_SPECIAL_CHARS. *)
Theorem accepted_passwords (password : string) (h : Hook) :
  fst (validatePassword password h) = true
  ↔ (8 ≤ String.length password ≤ 30)%nat
    ∧ has_char is_lower_letter password
    ∧ has_char is_upper_letter password
    ∧ has_char is_digit password
    ∧ has_char is_allowed_special password.
Proof.
  unfold validatePassword, newChecks. cbn [fst Object_values forallb
    check_length check_case check_number check_special].
  rewrite !andb_true_iff, !Z.leb_le.
  rewrite (test_class_has_char class_lower is_lower_letter)
    by (intros c; apply code_between_spec).
  rewrite (test_class_has_char class_upper is_upper_letter)
    by (intros c; apply code_between_spec).
  rewrite (test_class_has_char class_digit is_digit)
    by (intros c; apply code_between_spec).
  rewrite (test_class_has_char class_special is_allowed_special)
    by (intros c; apply class_special_spec).
  split.
  - intros ([? ?] & [? ?] & ? & ? & _). split_and!; auto; lia.
  - intros ([? ?] & ? & ? & ? & ?). split_and!; auto; lia.
Qed.

(** X21. Typing on never lowers the score as long as the password stays
    within 30 code units. *)
Theorem strength_grows_with_typing (p q : string) (h : Hook) :
  (String.length (p +:+ q) ≤ 30)%nat →
  strength (snd (validatePassword p h))
  ≤ strength (snd (validatePassword (p +:+ q) h)).
Proof.
  intros Hlen. unfold validatePassword, newChecks.
  cbn [snd strength Object_values check_length check_case check_number
       check_special].
  rewrite !test_class_app.
  rewrite length_app_string in *.
  assert (Hl : (8 <=? Z.of_nat (String.length p))
               && (Z.of_nat (String.length p) <=? 30) = true →
               (8 <=? Z.of_nat (String.length p + String.length q))
               && (Z.of_nat (String.length p + String.length q) <=? 30) = true).
  { rewrite !andb_true_iff, !Z.leb_le. lia. }
  destruct ((8 <=? Z.of_nat (String.length p))
            && (Z.of_nat (String.length p) <=? 30));
    [rewrite (Hl eq_refl)|clear Hl];
    destruct (test_class class_lower p), (test_class class_upper p),
      (test_class class_digit p), (test_class class_special p);
    cbn [orb andb];
    repeat match goal with
    | |- context [test_class ?c q] => destruct (test_class c q)
    | |- context [?a && ?b] => destruct (a && b)
    end; cbn; lia.
Qed.

Lemma strength_grows_with_typing_witness :
  strength (snd (validatePassword "Passw0rd" initial))
  ≤ strength (snd (validatePassword ("Passw0rd" +:+ "!") initial)).
Proof.
  apply (strength_grows_with_typing "Passw0rd" "!" initial).
  vm_compute. lia.
Defined.

End PasswordStrengthFacts.

(* ===================================================================== *)
(** ** Facts about SigninForm *)
(* ===================================================================== *)

Module SigninFormFacts.
Import SigninForm.

Lemma run_app (key : option string) (s : State) (es1 es2 : list Event) :
  run key s (es1 ++ es2) =
    let '(s1, a1) := run key s es1 in
    let '(s2, a2) := run key s1 es2 in
    (s2, a1 ++ a2).
Proof.
  revert s. induction es1 as [|e es1 IH]; intros s.
  - cbn. now destruct (run key s es2).
  - cbn [app run]. destruct (step key s e) as [s1 a1].
    rewrite IH. destruct (run key s1 es1) as [s2 a2].
    destruct (run key s2 es2) as [s3 a3]. now rewrite app_assoc.
Qed.





(** While the captcha is shown and no token is held, nothing that happens
    short of a verified token has any effect. *)
Lemma run_blocked (key : option string) (s : State) (events : list Event) :
  captcha_rendered key s = true →
  captchaToken s = "" →
  Forall (fun e => match e with CaptchaVerify tok => tok = "" | _ => True end)
         events →
  run key s events = (s, []).
Proof.
  intros Hr Ht Hall. induction Hall as [|e events He Hall IH]; [reflexivity|].
  cbn [run].
  assert (E : step key s e = (s, [])).
  { destruct e as [values answer|tok|]; cbn [step].
    - unfold onSubmitHandler. rewrite Hr, Ht. reflexivity.
    - rewrite Hr. subst tok. unfold handleCaptchaVerify.
      destruct s; cbn in *. now subst.
    - rewrite Hr. unfold handleCaptchaExpired. destruct s; cbn in *. now subst. }
  rewrite E, IH. reflexivity.
Qed.

Lemma submit_failing (key : option string) (s : State) (values : Values)
    (answer : MutateResult) :
  captcha_rendered key s = false →
  fails answer = true →
  step key s (Submit values answer)
  = (on_failure key s,
     [CallSignin "password" (username values) (password values)]).
Proof.
  intros Hr Hf. cbn [step]. unfold onSubmitHandler. rewrite Hr. cbn [andb].
  destruct answer as [|[res|]]; try reflexivity; discriminate Hf.
Qed.

(** X23. Three failures lock the form: with the captcha enabled, after
    three failed attempts made from the start no further sign-in request
    is sent, whatever is submitted, until a non-empty captcha token has
    been verified; the submission that follows the verification is sent. *)
Theorem three_failures_lock_the_form (key : option string)
    (v1 v2 v3 v : Values) (a1 a2 a3 answer : MutateResult)
    (events : list Event) (token : string) :
  captchaEnabled key = true →
  fails a1 = true → fails a2 = true → fails a3 = true →
  Forall (fun e => match e with CaptchaVerify tok => tok = "" | _ => True end)
         events →
  token ≠ "" →
  let locked := [Submit v1 a1; Submit v2 a2; Submit v3 a3] ++ events in
  snd (run key initial locked)
  = [CallSignin "password" (username v1) (password v1);
     CallSignin "password" (username v2) (password v2);
     CallSignin "password" (username v3) (password v3)]
  ∧ In (CallSignin "password" (username v) (password v))
       (snd (run key initial (locked ++ [CaptchaVerify token; Submit v answer]))).
Proof.
  intros Hen F1 F2 F3 Hall Htok locked.
  assert (R0 : ∀ n, captcha_rendered key (mkState "" n false) = false).
  { intros n. unfold captcha_rendered. cbn. apply andb_false_r. }
  assert (R3 : captcha_rendered key (mkState "" 3 true) = true).
  { unfold captcha_rendered. now rewrite Hen. }
  assert (E : run key initial locked
              = (mkState "" 3 true,
                 [CallSignin "password" (username v1) (password v1);
                  CallSignin "password" (username v2) (password v2);
                  CallSignin "password" (username v3) (password v3)])).
  { unfold locked. cbn [app run]. unfold initial.
    rewrite (submit_failing key _ v1 a1 (R0 0) F1).
    unfold on_failure at 1. rewrite Hen.
    cbn [failedAttempts captchaToken showCaptcha negb].
    rewrite (submit_failing key _ v2 a2 (R0 _) F2).
    unfold on_failure at 1. rewrite Hen.
    cbn [failedAttempts captchaToken showCaptcha negb].
    rewrite (submit_failing key _ v3 a3 (R0 _) F3).
    unfold on_failure at 1. rewrite Hen.
    cbn [failedAttempts captchaToken showCaptcha negb].
    change (run key _ events) with (run key (mkState "" 3 true) events).
    rewrite (run_blocked key _ events R3 eq_refl Hall). reflexivity. }
  split; [now rewrite E|].
  rewrite run_app, E. cbn [run step]. rewrite R3.
  unfold handleCaptchaVerify, onSubmitHandler, captcha_rendered.
  cbn [captchaToken failedAttempts showCaptcha Js.truthy].
  rewrite Hen. destruct (String.eqb_spec token ""); [contradiction|].
  cbn [andb negb].
  destruct answer as [|[res|]]; [|destruct (enable_mfa res)|];
    cbn [snd app]; do 3 right; now left.
Qed.

Lemma three_failures_lock_the_form_witness :
  let v := mkValues "ann@example.com" "secret" in
  let locked := [Submit v MutateRejects; Submit v MutateRejects;
                 Submit v (MutateResolves None)]
                ++ [Submit v MutateRejects; CaptchaExpired] in
  snd (run (Some "site-key") initial locked)
  = [CallSignin "password" (username v) (password v);
     CallSignin "password" (username v) (password v);
     CallSignin "password" (username v) (password v)]
  ∧ In (CallSignin "password" (username v) (password v))
       (snd (run (Some "site-key") initial
               (locked ++ [CaptchaVerify "tok"; Submit v MutateRejects]))).
Proof.
  intros v.
  apply (three_failures_lock_the_form (Some "site-key") v v v v
           MutateRejects MutateRejects (MutateResolves None) MutateRejects
           [Submit v MutateRejects; CaptchaExpired] "tok");
    try reflexivity.
  - repeat constructor.
  - discriminate.
Defined.

(** X24. The tokens of a sign-in response are handed to the store exactly
    when the submission was sent, the response arrived and does not ask
    for a second factor; in that case they are the tokens of the response.
    A response that asks for one leads to the verification page with the
    store untouched. *)
Theorem tokens_stored_only_without_mfa (key : option string) (s : State)
    (values : Values) (answer : MutateResult) (a r : option string) :
  In (Login a r) (snd (onSubmitHandler key s values answer))
  ↔ (captcha_rendered key s && negb (Js.truthy (Some (captchaToken s)))) = false
    ∧ ∃ res, answer = MutateResolves (Some res)
             ∧ enable_mfa res = false
             ∧ a = access_token res ∧ r = refresh_token res.
Proof.
  unfold onSubmitHandler.
  destruct (captcha_rendered key s && negb (Js.truthy (Some (captchaToken s)))).
  { cbn. split; [tauto|]. now intros [? _]. }
  destruct answer as [|[res|]]; cbn [snd].
  - split; [intros [|[]]; discriminate|]. now intros [_ (? & ? & _)].
  - destruct (enable_mfa res) eqn:E; cbn [snd].
    + split; [intros [|[|[]]]; discriminate|].
      intros [_ (res' & [= <-] & ? & _)]. congruence.
    + split.
      * intros [|[[= <- <-]|[|[|[]]]]]; try discriminate.
        split; [reflexivity|]. now exists res.
      * intros [_ (res' & [= <-] & _ & -> & ->)]. right. now left.
  - split; [intros [|[]]; discriminate|]. now intros [_ (? & ? & _)].
Qed.

(** X25. Nothing resets the gate: along any sequence of events the count
    of failed attempts never goes down and a captcha once shown stays
    shown, a successful sign-in included. *)
Theorem failures_are_never_forgotten (key : option string)
    (events : list Event) :
  ∀ s, failedAttempts s ≤ failedAttempts (fst (run key s events))
       ∧ (showCaptcha s = true → showCaptcha (fst (run key s events)) = true).
Proof.
  induction events as [|e events IH]; intros s; [cbn; split; [lia|auto]|].
  cbn [run].
  assert (G : failedAttempts s ≤ failedAttempts (fst (step key s e))
              ∧ (showCaptcha s = true → showCaptcha (fst (step key s e)) = true)).
  { destruct e as [values answer|tok|]; cbn [step fst].
    - unfold onSubmitHandler.
      destruct (captcha_rendered key s && _); cbn [fst]; [split; [lia|auto]|].
      assert (F : failedAttempts s ≤ failedAttempts (on_failure key s)
                  ∧ (showCaptcha s = true
                     → showCaptcha (on_failure key s) = true)).
      { unfold on_failure. destruct (captchaEnabled key); [|split; [lia|auto]].
        cbn. split; [lia|]. intros ->. now destruct (_ && _). }
      destruct answer as [|[res|]]; cbn [fst]; try exact F.
      destruct (enable_mfa res); cbn [fst]; split; try lia; auto.
    - destruct (captcha_rendered key s); cbn; split; try lia; auto.
    - destruct (captcha_rendered key s); cbn; split; try lia; auto. }
  destruct (step key s e) as [s1 a1]. cbn [fst] in G.
  specialize (IH s1). destruct (run key s1 events) as [s2 a2].
  cbn [fst] in *. destruct G as [G1 G2], IH as [I1 I2].
  split; [lia|auto].
Qed.

End SigninFormFacts.

(* ===================================================================== *)
(** ** Facts about the sign-in error handler *)
(* ===================================================================== *)

Module SigninMutationFacts.
Import Http Scenario MoreScenario HttpFacts SigninMutation.

Lemma isInvalidCredentials_HttpError (JSON_parse : string → option Json)
    (e : HttpError) :
  isInvalidCredentials JSON_parse (ErrHttpError e) = true
  ↔ status e = 400
    ∧ ∃ fields, error e = JObj fields
                ∧ get_field "error" fields = Some (JStr invalid_username_password).
Proof.
  unfold isInvalidCredentials. cbn [errorObj optional_of String.eqb
    Ascii.eqb Bool.eqb optional is_number is_string andb orb].
  rewrite orb_false_r, andb_true_iff, Z.eqb_eq.
  split.
  - intros [Hs He]. split; [exact Hs|].
    destruct (error e) as [| | | | |fields]; try discriminate He.
    exists fields. split; [reflexivity|].
    cbn [optional] in He.
    destruct (get_field "error" fields) as [[| | |x| |]|]; try discriminate He.
    cbn in He. apply String.eqb_eq in He. now subst.
  - intros [Hs (fields & -> & Hf)]. split; [exact Hs|].
    cbn [optional]. rewrite Hf. reflexivity.
Qed.

(** X26. For an [HttpError] of the HTTP client, [onError] reports
    'Invalid Credentials' exactly when the status is 400 and the payload
    is an object whose [error] is the string 'invalid_username_password';
    in every other case it reports 'Something went wrong'. *)
Theorem invalid_credentials_of_HttpError (JSON_parse : string → option Json)
    (e : HttpError) :
  (isInvalidCredentials JSON_parse (ErrHttpError e) = true
   ↔ status e = 400
     ∧ ∃ fields, error e = JObj fields
                 ∧ get_field "error" fields = Some (JStr invalid_username_password))
  ∧ onError JSON_parse (ErrHttpError e) =
      (if isInvalidCredentials JSON_parse (ErrHttpError e)
       then mkDetails "Invalid Credentials" "Your email or password is not valid."
       else mkDetails "Something went wrong" "Please try again.").
Proof.
  split; [apply isInvalidCredentials_HttpError|].
  unfold onError. now destruct (isInvalidCredentials _ _).
Qed.

(** X27. A sign-in failure that comes out of the HTTP client is reported
    as 'Invalid Credentials' exactly when the backend answered 400 with a
    JSON object whose [error] is 'invalid_username_password'; any other
    non-ok answer (401 apart) is reported as 'Something went wrong', an
    answer whose body does not parse included. *)
Theorem signin_failure_report (JSON_parse : string → option Json) (env : Env)
    (fuel : nat) (w : World) (url : string) (o : RequestOptions)
    (response : Response) :
  fetch env (log w) (fullUrl (process_env env) url)
        (request_config (process_env env) (store w) o) = FetchResolves response →
  ok response = false →
  resp_status response ≠ 401 →
  ∃ e, fst (request (S fuel) env w url o) = Settled (Thrown (EHttp e))
       ∧ (title (onError JSON_parse (ErrHttpError e)) = "Invalid Credentials"
          ↔ resp_status response = 400
            ∧ ∃ fields, resp_json response = Some (JObj fields)
                        ∧ get_field "error" fields
                          = Some (JStr invalid_username_password)).
Proof.
  intros Hf Hok H401. apply Z.eqb_neq in H401.
  assert (T : ∀ e, title (onError JSON_parse (ErrHttpError e)) = "Invalid Credentials"
                   ↔ status e = 400
                     ∧ ∃ fields, error e = JObj fields
                                 ∧ get_field "error" fields
                                   = Some (JStr invalid_username_password)).
  { intros e.
    rewrite <- (isInvalidCredentials_HttpError JSON_parse e). unfold onError.
    destruct (isInvalidCredentials _ _); cbn; split; congruence. }
  cbn [request]. rewrite Hf, Hok, H401.
  destruct (resp_json response) as [err|] eqn:Hj.
  - destruct err as [| | | | |fields] eqn:Herr;
      try (eexists; split; [reflexivity|]; rewrite T; cbn;
           split; [intros [? (? & ? & _)]; discriminate
                  |intros [? (? & ? & _)]; discriminate]).
    unfold throw_new_HttpError, HttpError_new. cbn [property].
    destruct (get_field "message" fields) as [[| | |m| |]|];
      (eexists; split; [reflexivity|]; rewrite T; cbn [status error];
       split; [intros [? (f & [= <-] & ?)]; split; [assumption|]; now exists fields
              |intros [? (f & [= <-] & ?)]; split; [assumption|]; now exists fields]).
  - eexists; split; [reflexivity|]. rewrite T. cbn.
    split; [intros [? _]; discriminate|intros [_ (? & ? & _)]; discriminate].
Qed.

Lemma signin_failure_report_witness :
  ∃ e, fst (request 1 env_signin_400 world0 "/authentication/v1/OAuth/Token"
              signin_request)
       = Settled (Thrown (EHttp e))
       ∧ (title (onError (fun _ => None) (ErrHttpError e)) = "Invalid Credentials"
          ↔ resp_status (mkResponse 400 (Some invalid_credentials_body)) = 400
            ∧ ∃ fields,
                resp_json (mkResponse 400 (Some invalid_credentials_body))
                = Some (JObj fields)
                ∧ get_field "error" fields
                  = Some (JStr invalid_username_password)).
Proof.
  apply (signin_failure_report (fun _ => None) env_signin_400 0 world0
           "/authentication/v1/OAuth/Token" signin_request
           (mkResponse 400 (Some invalid_credentials_body))).
  - reflexivity.
  - reflexivity.
  - discriminate.
Defined.

End SigninMutationFacts.

(* ===================================================================== *)
(** ** Facts about AuthenticatorAppSetup *)
(* ===================================================================== *)

Module AuthenticatorAppSetupFacts.
Import AuthenticatorAppSetup.

Lemma auto_verify_cases (pending : bool) (s : State) :
  (auto_verify pending s
   = (mkState (otpValue s) (otpError s) (mfaId s) (otpValue s),
      [CallVerifyOTP (mkVerifyOTP (otpValue s) (mfaId s) 1)])
   ∧ String.length (otpValue s) = 6%nat
   ∧ mfaId s ≠ ""
   ∧ otpValue s ≠ lastVerifiedOtp s)
  ∨ auto_verify pending s = (s, []).
Proof.
  unfold auto_verify.
  destruct (Z.of_nat (String.length (otpValue s)) =? 6) eqn:E1; [|now right].
  destruct (Js.truthy (Some (mfaId s))) eqn:E2; [|now right].
  destruct pending; [now right|].
  destruct (String.eqb_spec (otpValue s) (lastVerifiedOtp s)); [now right|].
  left. cbn [andb negb]. unfold onVerify. cbn [mfaId otpValue]. rewrite E2.
  cbn [negb]. split_and!; auto.
  - apply Z.eqb_eq in E1. lia.
  - intros E. rewrite E in E2. discriminate E2.
Qed.

Lemma step_keeps_last_verified (s : State) (e : Event) :
  (∀ pending, e ≠ Effect pending) →
  lastVerifiedOtp (fst (step s e)) = lastVerifiedOtp s.
Proof.
  intros H. destruct e as [v|pending| |res|res|]; cbn [step fst];
    try reflexivity.
  - now destruct (H pending).
  - unfold onVerify. now destruct (negb _).
  - unfold onGenerated. destruct res as [r|]; [|reflexivity].
    now destruct (isSuccess r && isSuccess r).
  - unfold onVerified. now destruct (match res with Some _ => _ | None => _ end).
Qed.

(** X28. The effect never sends the same code twice in a row: of the
    codes that it sends for verification by itself, each has six code units
    and differs from the one it sent before (and the first from the code
    last verified at the start). A code entered again after a failed
    verification is therefore not sent again by the effect. *)
Theorem auto_verification_never_repeats (events : list Event) :
  ∀ s, no_repeat (lastVerifiedOtp s) (auto_codes s events)
       ∧ Forall (fun c => String.length c = 6%nat) (auto_codes s events).
Proof.
  induction events as [|e events IH]; intros s; [split; constructor|].
  cbn [auto_codes].
  destruct e as [v|pending| |res|res|].
  2:{ cbn [step].
      destruct (auto_verify_cases pending s) as [(E & Hlen & _ & Hne)|E];
        rewrite E.
      - cbn [verificationCode]. destruct (IH (mkState (otpValue s) (otpError s)
                                                (mfaId s) (otpValue s)))
          as [I1 I2].
        cbn [lastVerifiedOtp] in I1.
        split; [split; [exact Hne|exact I1]|constructor; [exact Hlen|exact I2]].
      - apply IH. }
  all: match goal with
       | |- context [step ?s0 ?e] =>
           pose proof (step_keeps_last_verified s0 e
                         ltac:(intros; discriminate)) as K;
           destruct (step s0 e) as [s1 acts]; cbn [fst] in K;
           rewrite <- K; apply IH
       end.
Qed.

Lemma run_In (events : list Event) :
  ∀ s a, In a (snd (run s events)) →
         ∃ s0 e, In e events ∧ In a (snd (step s0 e)).
Proof.
  induction events as [|e events IH]; intros s a H; [destruct H|].
  cbn [run] in H. destruct (step s e) as [s1 acts1] eqn:E.
  destruct (run s1 events) as [s2 acts2] eqn:R. cbn [snd] in H.
  apply in_app_or in H as [H|H].
  - exists s, e. split; [now left|]. now rewrite E.
  - destruct (IH s1 a) as (s0 & e0 & He & Ha); [now rewrite R|].
    exists s0, e0. split; [now right|exact Ha].
Qed.

(** X29. Whatever happens to the dialog: a verification request always
    carries a non-empty [mfaId] and the authentication type 1; the 'Setup
    Incomplete' toast comes from a click on Verify only, never from the
    effect; and [onNext] is called only on an answer that is both
    successful and valid. *)
Theorem dialog_actions (s : State) (events : list Event) (a : Action) :
  In a (snd (run s events)) →
  match a with
  | CallVerifyOTP p => payload_mfaId p ≠ "" ∧ authType p = 1
  | ToastSetupIncomplete => In ClickVerify events
  | CallOnNext =>
      ∃ r, In (Verified (Some r)) events
           ∧ isSuccess r = true ∧ isValid r = true
  end.
Proof.
  intros H. apply run_In in H as (s0 & e & He & Ha).
  destruct e as [v|pending| |res|res|]; cbn [step snd] in Ha;
    try (now destruct Ha).
  - destruct (auto_verify_cases pending s0) as [(E & _ & Hm & _)|E];
      rewrite E in Ha; cbn [snd] in Ha; [|now destruct Ha].
    destruct Ha as [<-|[]]. now split.
  - unfold onVerify in Ha.
    destruct (Js.truthy (Some (mfaId s0))) eqn:T; cbn [negb snd] in Ha;
      destruct Ha as [<-|[]]; [|exact He].
    split; [|reflexivity]. cbn [payload_mfaId]. intros E. rewrite E in T.
    discriminate T.
  - unfold onVerified in Ha. destruct res as [r|]; cbn [snd] in Ha.
    + destruct (isSuccess r && isValid r) eqn:B; cbn [snd] in Ha;
        [|now destruct Ha].
      destruct Ha as [<-|[]]. apply andb_true_iff in B as [? ?].
      now exists r.
    + now destruct Ha.
Qed.

Lemma dialog_actions_witness :
  In ClickVerify [Change "123456"; Effect false; ClickVerify].
Proof.
  apply (dialog_actions initial [Change "123456"; Effect false; ClickVerify]
           ToastSetupIncomplete).
  vm_compute. now left.
Defined.

End AuthenticatorAppSetupFacts.
